(** * Image Flux Player (src/App.tsx): a shallow embedding and its properties

    The component keeps its React state in seven [useState] cells and reacts
    to browser events.  This development embeds

    - the two slider mappings [mapSpeedToDuration] and [mapDelayToMs] and the
      per-frame [render] routine, generically over a model of JavaScript
      numbers, instantiated at exact rationals and at IEEE-754 binary64;
    - the upload handler, the [img.onload] callback it installs, the
      play/pause button, the sliders and the advance timer, as a step
      function on an explicit world state. *)

From Stdlib Require Import ZArith QArith Qround Qabs Lia Lqa List SpecFloat.
From stdpp Require Import base list strings pretty.

Set Default Proof Using "Type".

(** ** JavaScript numbers *)

(** The operations of [number] that App.tsx uses.  [num_of_Z] reads an
    integer literal (or an integer-valued number such as a slider position),
    [num_of_dec] a decimal literal such as [0.65]. *)
Class JSNumber (N : Type) : Type := {
  num_of_Z : Z -> N;
  num_of_dec : Q -> N;
  num_add : N -> N -> N;
  num_sub : N -> N -> N;
  num_mul : N -> N -> N;
  num_div : N -> N -> N;
  num_neg : N -> N;
  num_ltb : N -> N -> bool;
  num_min : N -> N -> N
}.

Declare Scope js_scope.
Delimit Scope js_scope with js.
Notation "x + y" := (num_add x y) : js_scope.
Notation "x - y" := (num_sub x y) : js_scope.
Notation "x * y" := (num_mul x y) : js_scope.
Notation "x / y" := (num_div x y) : js_scope.
Notation "- x" := (num_neg x) : js_scope.
Notation "x <? y" := (num_ltb x y) : js_scope.
Notation "x >? y" := (num_ltb y x) : js_scope.

(** Exact arithmetic: numbers as rationals, no rounding. *)
#[export] Instance Q_JSNumber : JSNumber Q := {|
  num_of_Z := inject_Z;
  num_of_dec := fun q => q;
  num_add := Qplus;
  num_sub := Qminus;
  num_mul := Qmult;
  num_div := Qdiv;
  num_neg := Qopp;
  num_ltb := fun x y => negb (Qle_bool y x);
  num_min := fun x y => if Qle_bool x y then x else y
|}.

(** IEEE-754 binary64, the representation JavaScript prescribes, through the
    Standard Library's executable specification of floating point. *)
Module Binary64.

Definition prec : Z := 53.
Definition emax : Z := 1024.

Definition b64 : Type := spec_float.

Definition of_Z (z : Z) : b64 := binary_normalize prec emax z 0 false.

(** A decimal literal denotes the double nearest to its value; for a
    literal [a/b] whose numerator and denominator are below 2^53 that is
    the correctly rounded quotient of the two integers. *)
Definition of_dec (q : Q) : b64 :=
  SFdiv prec emax (of_Z (Qnum q)) (of_Z (Zpos (Qden q))).

Definition is_nan (x : b64) : bool :=
  match x with S754_nan => true | _ => false end.

(** [Math.min]: NaN if either argument is NaN. *)
Definition min (x y : b64) : b64 :=
  if is_nan x || is_nan y then S754_nan
  else if SFltb y x then y else x.

(** The rational a finite double stands for. *)
Definition to_Q (x : b64) : option Q :=
  match x with
  | S754_zero _ => Some 0%Q
  | S754_finite s m e =>
      let v := if (0 <=? e)%Z then inject_Z (Zpos m * 2 ^ e)
               else Qmake (Zpos m) (Z.to_pos (2 ^ (- e))) in
      Some (if s then Qopp v else v)
  | S754_infinity _ | S754_nan => None
  end.

(** [within x q eps]: [x] is finite and at most [eps] away from [q]. *)
Definition within (x : b64) (q eps : Q) : bool :=
  match to_Q x with
  | Some v => Qle_bool (Qabs (v - q)) eps
  | None => false
  end.

(** The tolerance of the comparisons with exact arithmetic: 10^-12. *)
Definition rounding_eps : Q := Qmake 1 (10 ^ 12).

End Binary64.

#[export] Instance b64_JSNumber : JSNumber Binary64.b64 := {|
  num_of_Z := Binary64.of_Z;
  num_of_dec := Binary64.of_dec;
  num_add := SFadd Binary64.prec Binary64.emax;
  num_sub := SFsub Binary64.prec Binary64.emax;
  num_mul := SFmul Binary64.prec Binary64.emax;
  num_div := SFdiv Binary64.prec Binary64.emax;
  num_neg := SFopp;
  num_ltb := SFltb;
  num_min := Binary64.min
|}.

(** ** The slider mappings (App.tsx, lines 11-23) *)

Section Mappings.
Context {N : Type} `{JSNumber N}.
Local Open Scope js_scope.

Definition mapSpeedToDuration (speed : N) : N :=
  (* speed 0-100 -> duration 4000-600 ms *)
  let min := num_of_Z 600 in
  let max := num_of_Z 4000 in
  max - (speed / num_of_Z 100) * (max - min).

Definition mapDelayToMs (delay : N) : N :=
  (* delay 0-100 -> 500-6000 ms between images *)
  let min := num_of_Z 500 in
  let max := num_of_Z 6000 in
  min + (delay / num_of_Z 100) * (max - min).

End Mappings.

(** The positions a range input with [min=0], [max=100] and the default
    step can report. *)
Definition slider_positions : list Z := map Z.of_nat (seq 0 101).


(** ** The canvas and the per-frame routine (App.tsx, lines 150-187) *)

(** An image element: its [src] and the closure installed as [onload],
    named by the index of its environment in the world's closure store. *)
Record HTMLImageElement : Type := {
  src : string;
  onload : option nat
}.

Record ImageEntry : Type := {
  url : string;
  img : HTMLImageElement
}.

(** The calls [render] makes on the 2D context. *)
Inductive CanvasOp (N : Type) : Type :=
  | clearRect (x y w h : N)
  | set_fillStyle (style : string)
  | fillRect (x y w h : N)
  | save
  | restore
  | translate (x y : N)
  | rotate (angle : N)
  | set_globalAlpha (a : N)
  | drawImage (i : HTMLImageElement) (dx dy dw dh : N).

Arguments clearRect {N} x y w h.
Arguments set_fillStyle {N} style.
Arguments fillRect {N} x y w h.
Arguments save {N}.
Arguments restore {N}.
Arguments translate {N} x y.
Arguments rotate {N} angle.
Arguments set_globalAlpha {N} a.
Arguments drawImage {N} i dx dy dw dh.

(** The variables of the animation effect that [render] closes over. *)
Record RenderEnv (N : Type) : Type := {
  canvas_width : N;
  canvas_height : N;
  env_img : HTMLImageElement;
  start : N;
  duration : N;
  centerX : N;
  centerY : N;
  angleRad : N;
  drawWidth : N;
  drawHeight : N;
  env_shade : N
}.

Arguments canvas_width {N} _.
Arguments canvas_height {N} _.
Arguments env_img {N} _.
Arguments start {N} _.
Arguments duration {N} _.
Arguments centerX {N} _.
Arguments centerY {N} _.
Arguments angleRad {N} _.
Arguments drawWidth {N} _.
Arguments drawHeight {N} _.
Arguments env_shade {N} _.

Section Render.
Context {N : Type} `{JSNumber N}.
Local Open Scope js_scope.

(** The shade branch of [render] (lines 174-182). *)
Definition shadeOverlay (shade w h : N) : list (CanvasOp N) :=
  (* shade overlay (0-100 -> 0-0.65 alpha) *)
  if shade >? num_of_Z 0 then
    let shadeAlpha := (shade / num_of_Z 100) * num_of_dec (65 # 100) in
    [ save;
      set_globalAlpha shadeAlpha;
      set_fillStyle "#000000";
      fillRect (num_of_Z 0) (num_of_Z 0) w h;
      restore ]
  else [].

(** One call of [render]: the context calls it makes, in order, and
    whether it requests another animation frame ([t < 1]). *)
Definition render (c : RenderEnv N) (time : N) : list (CanvasOp N) * bool :=
  let t := num_min (num_of_Z 1) ((time - start c) / duration c) in
  let alpha := t in (* simple fade-in *)
  let w := canvas_width c in
  let h := canvas_height c in
  ([ clearRect (num_of_Z 0) (num_of_Z 0) w h;
     (* background *)
     set_fillStyle "#05060a";
     fillRect (num_of_Z 0) (num_of_Z 0) w h;
     save;
     translate (centerX c) (centerY c);
     rotate (angleRad c);
     set_globalAlpha alpha;
     drawImage (env_img c)
       (- drawWidth c / num_of_Z 2) (- drawHeight c / num_of_Z 2)
       (drawWidth c) (drawHeight c);
     restore ]
   ++ shadeOverlay (env_shade c) w h,
   t <? num_of_Z 1).

(** The drawing state of a 2D context that the routine touches, and the
    stack [save]/[restore] keep it on. *)
Record CtxState : Type := {
  globalAlpha : N;
  fillStyle : string
}.

(** What reaches the canvas: a cleared area, a rectangle filled with a
    style at an alpha, an image drawn at an alpha. *)
Inductive Painted : Type :=
  | Cleared (x y w h : N)
  | Filled (style : string) (a : N) (x y w h : N)
  | Drawn (i : HTMLImageElement) (a : N) (dx dy dw dh : N).

Fixpoint paint (ops : list (CanvasOp N)) (cur : CtxState)
    (stack : list CtxState) : list Painted :=
  match ops with
  | [] => []
  | op :: ops' =>
      match op with
      | clearRect x y w h => Cleared x y w h :: paint ops' cur stack
      | set_fillStyle s =>
          paint ops' {| globalAlpha := globalAlpha cur; fillStyle := s |} stack
      | fillRect x y w h =>
          Filled (fillStyle cur) (globalAlpha cur) x y w h
            :: paint ops' cur stack
      | save => paint ops' cur (cur :: stack)
      | restore =>
          match stack with
          | [] => paint ops' cur []
          | top :: stack' => paint ops' top stack'
          end
      | translate _ _ | rotate _ => paint ops' cur stack
      | set_globalAlpha a =>
          paint ops' {| globalAlpha := a; fillStyle := fillStyle cur |} stack
      | drawImage i dx dy dw dh =>
          Drawn i (globalAlpha cur) dx dy dw dh :: paint ops' cur stack
      end
  end.

(** A fresh context: opaque, black fill. *)
Definition ctx_default : CtxState :=
  {| globalAlpha := num_of_Z 1; fillStyle := "#000000" |}.

(** What one frame paints. *)
Definition frame (c : RenderEnv N) (time : N) : list Painted :=
  paint (fst (render c time)) ctx_default [].

(** The alphas of the black rectangles a frame lays over the canvas. *)
Definition overlay_alphas (ps : list Painted) : list N :=
  flat_map (fun p =>
    match p with
    | Filled style a _ _ _ _ => if String.eqb style "#000000" then [a] else []
    | _ => []
    end) ps.

End Render.

(** ** React state and the browser around it *)

Definition File : Type := string.

(** The seven [useState] cells (lines 29-36). *)
Record PlayerState : Type := {
  images : list ImageEntry;
  currentIndex : nat;
  isPlaying : bool;
  speed : Z;
  delay : Z;
  shade : Z;
  volume : Z
}.

Definition initial_state : PlayerState :=
  {| images := []; currentIndex := 0; isPlaying := false;
     speed := 60; delay := 40; shade := 20; volume := 50 |}.

Definition setImages (f : list ImageEntry -> list ImageEntry)
    (s : PlayerState) : PlayerState :=
  {| images := f (images s); currentIndex := currentIndex s;
     isPlaying := isPlaying s; speed := speed s; delay := delay s;
     shade := shade s; volume := volume s |}.

Definition setCurrentIndex (i : nat) (s : PlayerState) : PlayerState :=
  {| images := images s; currentIndex := i;
     isPlaying := isPlaying s; speed := speed s; delay := delay s;
     shade := shade s; volume := volume s |}.

Definition setIsPlaying (b : bool) (s : PlayerState) : PlayerState :=
  {| images := images s; currentIndex := currentIndex s;
     isPlaying := b; speed := speed s; delay := delay s;
     shade := shade s; volume := volume s |}.

Definition setSpeed (v : Z) (s : PlayerState) : PlayerState :=
  {| images := images s; currentIndex := currentIndex s;
     isPlaying := isPlaying s; speed := v; delay := delay s;
     shade := shade s; volume := volume s |}.

Definition setDelay (v : Z) (s : PlayerState) : PlayerState :=
  {| images := images s; currentIndex := currentIndex s;
     isPlaying := isPlaying s; speed := speed s; delay := v;
     shade := shade s; volume := volume s |}.

Definition setShade (v : Z) (s : PlayerState) : PlayerState :=
  {| images := images s; currentIndex := currentIndex s;
     isPlaying := isPlaying s; speed := speed s; delay := delay s;
     shade := v; volume := volume s |}.

Definition setVolume (v : Z) (s : PlayerState) : PlayerState :=
  {| images := images s; currentIndex := currentIndex s;
     isPlaying := isPlaying s; speed := speed s; delay := delay s;
     shade := shade s; volume := v |}.

(** The variables one call of [handleImageUpload] leaves behind for the
    [onload] callbacks it installed: [files.length], the [newEntries] array,
    the [loadedCount] counter, and the [isPlaying] of the render the handler
    belongs to. *)
Record UploadClosure : Type := {
  files_length : nat;
  newEntries : list ImageEntry;
  loadedCount : nat;
  seen_isPlaying : bool
}.

(** The world: React state, the object URLs created so far (the file each
    stands for, in creation order), and the closure environments. *)
Record World : Type := {
  react : PlayerState;
  objectURLs : list File;
  closures : list UploadClosure
}.

Definition initial_world : World :=
  {| react := initial_state; objectURLs := []; closures := [] |}.

Definition with_react (f : PlayerState -> PlayerState) (w : World) : World :=
  {| react := f (react w); objectURLs := objectURLs w; closures := closures w |}.

(** [URL.createObjectURL]: registers the file, returns a fresh URL. *)
Definition createObjectURL (file : File) (store : list File)
    : string * list File :=
  (String.append "blob:" (pretty (length store)), store ++ [file]).

(** The body of the [forEach] (lines 48-61) for one file: create the URL and
    the image, install [onload], set [src], push the entry. *)
Definition upload_file (env_id : nat)
    (acc : list File * list ImageEntry) (file : File)
    : list File * list ImageEntry :=
  let '(u, store') := createObjectURL file (fst acc) in
  let i := {| src := u; onload := Some env_id |} in
  (store', snd acc ++ [ {| url := u; img := i |} ]).

(** [handleImageUpload] (lines 39-62); [files] is [event.target.files]. *)
Definition handleImageUpload (files : option (list File)) (w : World) : World :=
  match files with
  | None => w
  | Some fs =>
      if (length fs =? 0)%nat then w
      else
        let env_id := length (closures w) in
        let '(store', entries) :=
          foldl (upload_file env_id) (objectURLs w, []) fs in
        {| react := react w;
           objectURLs := store';
           closures := closures w ++
             [ {| files_length := length fs;
                  newEntries := entries;
                  loadedCount := 0;
                  seen_isPlaying := isPlaying (react w) |} ] |}
  end.

(** The [img.onload] callback (lines 51-58), run in environment [env_id]. *)
Definition img_onload (env_id : nat) (w : World) : World :=
  match closures w !! env_id with
  | None => w
  | Some c =>
      let c' := {| files_length := files_length c;
                   newEntries := newEntries c;
                   loadedCount := loadedCount c + 1;
                   seen_isPlaying := seen_isPlaying c |} in
      let w' := {| react := react w;
                   objectURLs := objectURLs w;
                   closures := <[env_id := c']> (closures w) |} in
      if (loadedCount c' =? files_length c')%nat then
        (* All finished; update in one go to avoid flicker *)
        let w'' := with_react (setImages (fun prev => prev ++ newEntries c')) w' in
        if negb (seen_isPlaying c') then with_react (setIsPlaying true) w''
        else w''
      else w'
  end.

(** The play/pause button (lines 233-239); it is disabled, and so receives
    no click, while there are no images. *)
Definition playPauseClick (w : World) : World :=
  if (length (images (react w)) =? 0)%nat then w
  else with_react (fun s => setIsPlaying (negb (isPlaying s)) s) w.

(** *** The advance timer (lines 195-212) *)

(** [Math.floor(Math.random() * images.length)] for a draw [r]; draws are
    taken as exact rationals of [0,1). *)
Definition random_index (r : Q) (images_length : nat) : nat :=
  Z.to_nat (Qfloor (r * inject_Z (Z.of_nat images_length))).

(** [while (next === prev) next = Math.floor(Math.random() * images.length)],
    run on the successive results of [Math.random]; [None] when the loop has
    consumed every draw and is still running. *)
Fixpoint reroll (draws : list Q) (images_length prev next : nat) : option nat :=
  if (next =? prev)%nat then
    match draws with
    | [] => None
    | r :: draws' =>
        reroll draws' images_length prev (random_index r images_length)
    end
  else Some next.

(** The updater passed to [setCurrentIndex] (lines 201-208). *)
Definition advance (images_length : nat) (draws : list Q) (prev : nat)
    : option nat :=
  if (images_length <=? 1)%nat then Some prev
  else
    let next := prev in
    reroll draws images_length prev next.

(** The effect's guard (line 196): the delay of the timer it sets, if any. *)
Definition advanceTimer {N : Type} `{JSNumber N} (s : PlayerState) : option N :=
  if negb (isPlaying s) || (length (images s) <=? 1)%nat then None
  else Some (mapDelayToMs (num_of_Z (delay s))).

(** The timer set by the effect fires.  The effect re-runs, and replaces the
    timer, whenever [images.length] changes, so the length its callback
    closed over is the current one. *)
Definition advanceTimeout (draws : list Q) (w : World) : option World :=
  match advanceTimer (N := Q) (react w) with
  | None => Some w
  | Some _ =>
      match advance (length (images (react w))) draws (currentIndex (react w)) with
      | Some next => Some (with_react (setCurrentIndex next) w)
      | None => None
      end
  end.

(** *** Events *)

Inductive Event : Type :=
  | ImageInputChange (files : option (list File))
  | ImageLoad (i : HTMLImageElement)
  | PlayPauseClick
  | SpeedChange (v : Z)
  | DelayChange (v : Z)
  | ShadeChange (v : Z)
  | VolumeChange (v : Z)
  | AdvanceTimeout (draws : list Q).

(** One event handled to completion; [None] when the handler does not
    return on the draws given. *)
Definition step (e : Event) (w : World) : option World :=
  match e with
  | ImageInputChange files => Some (handleImageUpload files w)
  | ImageLoad i =>
      match onload i with
      | Some env_id => Some (img_onload env_id w)
      | None => Some w
      end
  | PlayPauseClick => Some (playPauseClick w)
  | SpeedChange v => Some (with_react (setSpeed v) w)
  | DelayChange v => Some (with_react (setDelay v) w)
  | ShadeChange v => Some (with_react (setShade v) w)
  | VolumeChange v => Some (with_react (setVolume v) w)
  | AdvanceTimeout draws => advanceTimeout draws w
  end.

Fixpoint run (evs : list Event) (w : World) : option World :=
  match evs with
  | [] => Some w
  | e :: evs' =>
      match step e w with
      | Some w' => run evs' w'
      | None => None
      end
  end.

(** The images whose [load] event a trace delivers, in order. *)
Definition loads_of (evs : list Event) : list HTMLImageElement :=
  flat_map (fun e => match e with ImageLoad i => [i] | _ => [] end) evs.

(** What a range input and [Math.random] can deliver. *)
Definition unit_draw (r : Q) : Prop := (0 <= r)%Q /\ (r < 1)%Q.

Definition event_ok (e : Event) : Prop :=
  match e with
  | AdvanceTimeout draws => Forall unit_draw draws
  | SpeedChange v | DelayChange v | ShadeChange v | VolumeChange v =>
      (0 <= v <= 100)%Z
  | _ => True
  end.

(** The entries a call of [handleImageUpload] on [fs] creates in [w]. *)
Definition batch_entries (fs : list File) (w : World) : list ImageEntry :=
  snd (foldl (upload_file (length (closures w))) (objectURLs w, []) fs).

(** The closure environment a call on a non-empty selection leaves. *)
Definition batch_closure (fs : list File) (w : World) : UploadClosure :=
  {| files_length := length fs;
     newEntries := batch_entries fs w;
     loadedCount := 0;
     seen_isPlaying := isPlaying (react w) |}.

(** [currentIndex] names an entry, or the list is empty and it is 0. *)
Definition index_valid (s : PlayerState) : Prop :=
  currentIndex s < length (images s) \/ currentIndex s = 0.

(** The environment [c] after [n] more runs of its [onload] callback. *)
Definition loaded (n : nat) (c : UploadClosure) : UploadClosure :=
  {| files_length := files_length c;
     newEntries := newEntries c;
     loadedCount := loadedCount c + n;
     seen_isPlaying := seen_isPlaying c |}.

(** Whether [n] more runs take the counter of [c] to [files.length]. *)
Definition completes (n : nat) (c : UploadClosure) : bool :=
  (loadedCount c <? files_length c)%nat
  && (files_length c <=? loadedCount c + n)%nat.

(** ** The rest of the component *)

(** *** The animation effect (lines 114-192) *)

(** The canvas element, as far as the effect reads it. *)
Record Canvas (N : Type) : Type := {
  cv_width : N;
  cv_height : N
}.

Arguments cv_width {N} _.
Arguments cv_height {N} _.

(** What running an effect comes to: it returns early, it throws, or it
    sets its work up. *)
Inductive EffectResult (A : Type) : Type :=
  | Returned
  | Thrown
  | Started (a : A).

Arguments Returned {A}.
Arguments Thrown {A}.
Arguments Started {A} a.

Section Animation.
Context {N : Type} `{JSNumber N}.
Local Open Scope js_scope.

Definition MIN_SCALE_FACTOR : N := num_of_dec (85 # 100).
Definition MAX_SCALE_FACTOR : N := num_of_dec (115 # 100).

(** [Math.PI], the double 7074237752028440 * 2^-51. *)
Definition Math_PI : N := num_of_dec (884279719003555 # 281474976710656).

(** The body of the effect up to the first [requestAnimationFrame]:
    [canvas] is [canvasRef.current], [has_ctx] tells whether [getContext]
    gives a context, [size_of] the [width] and [height] an image reports,
    [now] is [performance.now()], and [r1], [r2] are the two results of
    [Math.random], in the order the effect asks for them.  Reading [.img]
    of an entry that is not there throws. *)
Definition animationEffect (canvas : option (Canvas N)) (has_ctx : bool)
    (size_of : HTMLImageElement -> N * N) (s : PlayerState) (now r1 r2 : N)
    : EffectResult (RenderEnv N) :=
  match canvas with
  | None => Returned
  | Some cv =>
      if (length (images s) =? 0)%nat then Returned
      else if negb has_ctx then Returned
      else
        match images s !! currentIndex s with
        | None => Thrown
        | Some entry =>
            let i := img entry in
            let img_width := fst (size_of i) in
            let img_height := snd (size_of i) in
            let duration := mapSpeedToDuration (num_of_Z (speed s)) in
            let start := now in
            (* ensure size variance not > 15% of a normalized base *)
            let baseScale :=
              num_min (cv_width cv / img_width) (cv_height cv / img_height) in
            let jitterFactor :=
              MIN_SCALE_FACTOR + r1 * (MAX_SCALE_FACTOR - MIN_SCALE_FACTOR) in
            let scale := baseScale * jitterFactor in
            let drawWidth := img_width * scale in
            let drawHeight := img_height * scale in
            let centerX := cv_width cv / num_of_Z 2 in
            let centerY := cv_height cv / num_of_Z 2 in
            (* small random rotation for creative feel *)
            let maxAngleDeg := num_of_Z 5 in
            let angleRad :=
              ((r2 * num_of_Z 2 - num_of_Z 1) * maxAngleDeg * Math_PI)
              / num_of_Z 180 in
            Started {| canvas_width := cv_width cv;
                       canvas_height := cv_height cv;
                       env_img := i;
                       start := start;
                       duration := duration;
                       centerX := centerX;
                       centerY := centerY;
                       angleRad := angleRad;
                       drawWidth := drawWidth;
                       drawHeight := drawHeight;
                       env_shade := num_of_Z (shade s) |}
        end
  end.

(** The animation-frame loop: [render] runs at each timestamp the browser
    supplies and asks for the next frame while [t < 1].  The result is the
    frames painted, and whether a frame is still being asked for when the
    timestamps run out. *)
Fixpoint frameLoop (c : RenderEnv N) (times : list N)
    : list (list Painted) * bool :=
  match times with
  | [] => ([], true)
  | time :: times' =>
      if snd (render c time) then
        let '(frames, pending) := frameLoop c times' in
        (frame c time :: frames, pending)
      else ([frame c time], false)
  end.

(** The alphas at which a frame draws images. *)
Definition image_alphas (ps : list Painted) : list N :=
  flat_map (fun p =>
    match p with
    | Drawn _ a _ _ _ _ => [a]
    | _ => []
    end) ps.

End Animation.

(** *** The canvas resize effect (lines 97-111) *)

(** [resize]: the canvas takes the client size of its parent, when it has
    one. *)
Definition resize {N : Type} (parent : option (N * N)) (cv : Canvas N)
    : Canvas N :=
  match parent with
  | None => cv
  | Some (clientWidth, clientHeight) =>
      {| cv_width := clientWidth; cv_height := clientHeight |}
  end.

(** *** The carousel thumbnail (line 215) *)

(** [images[currentIndex]?.url]. *)
Definition currentImageUrl (s : PlayerState) : option string :=
  match images s !! currentIndex s with
  | Some entry => Some (url entry)
  | None => None
  end.

(** *** Audio (lines 65-94) *)

(** The audio element, as far as the component touches it. *)
Record HTMLAudioElement (N : Type) : Type := {
  audio_src : string;
  audio_loop : bool;
  audio_paused : bool;
  audio_volume : N
}.

Arguments audio_src {N} _.
Arguments audio_loop {N} _.
Arguments audio_paused {N} _.
Arguments audio_volume {N} _.

(** The page: the world of the slideshow and [audioRef.current]. *)
Record Page (N : Type) : Type := {
  page_world : World;
  audioRef : option (HTMLAudioElement N)
}.

Arguments page_world {N} _.
Arguments audioRef {N} _.

Section Audio.
Context {N : Type} `{JSNumber N}.
Local Open Scope js_scope.

(** Assigning [src] loads the new resource, which leaves the element
    paused. *)
Definition audio_set_src (u : string) (a : HTMLAudioElement N)
    : HTMLAudioElement N :=
  {| audio_src := u; audio_loop := audio_loop a;
     audio_paused := true; audio_volume := audio_volume a |}.

Definition audio_set_loop (b : bool) (a : HTMLAudioElement N)
    : HTMLAudioElement N :=
  {| audio_src := audio_src a; audio_loop := b;
     audio_paused := audio_paused a; audio_volume := audio_volume a |}.

Definition audio_set_volume (v : N) (a : HTMLAudioElement N)
    : HTMLAudioElement N :=
  {| audio_src := audio_src a; audio_loop := audio_loop a;
     audio_paused := audio_paused a; audio_volume := v |}.

(** [play().catch(() => {})]: playback starts when the browser allows it;
    when it does not, the rejection is caught and nothing changes. *)
Definition audio_play (allowed : bool) (a : HTMLAudioElement N)
    : HTMLAudioElement N :=
  if allowed then
    {| audio_src := audio_src a; audio_loop := audio_loop a;
       audio_paused := false; audio_volume := audio_volume a |}
  else a.

Definition audio_pause (a : HTMLAudioElement N) : HTMLAudioElement N :=
  {| audio_src := audio_src a; audio_loop := audio_loop a;
     audio_paused := true; audio_volume := audio_volume a |}.

(** [handleAudioUpload] (lines 65-78); [file] is
    [event.target.files?.[0]]. *)
Definition handleAudioUpload (file : option File) (allowed : bool)
    (p : Page N) : Page N :=
  match file with
  | None => p
  | Some f =>
      let '(u, store') := createObjectURL f (objectURLs (page_world p)) in
      let w' := {| react := react (page_world p);
                   objectURLs := store';
                   closures := closures (page_world p) |} in
      match audioRef p with
      | Some a =>
          {| page_world := w';
             audioRef :=
               Some (audio_play allowed
                       (audio_set_loop true (audio_set_src u a))) |}
      | None => {| page_world := w'; audioRef := None |}
      end
  end.

(** [handleToggleAudio] (lines 80-87). *)
Definition handleToggleAudio (allowed : bool) (p : Page N) : Page N :=
  match audioRef p with
  | None => p
  | Some a =>
      if audio_paused a then
        {| page_world := page_world p;
           audioRef := Some (audio_play allowed a) |}
      else
        {| page_world := page_world p;
           audioRef := Some (audio_pause a) |}
  end.

(** The volume effect (lines 90-94). *)
Definition volumeEffect (p : Page N) : Page N :=
  match audioRef p with
  | Some a =>
      {| page_world := page_world p;
         audioRef :=
           Some (audio_set_volume
                   (num_of_Z (volume (react (page_world p))) / num_of_Z 100)
                   a) |}
  | None => p
  end.

End Audio.

(** *** What the reachable worlds have in common *)

(** An entry whose URL is one the store has handed out, with an image
    loading from it. *)
Definition entry_registered (store : list File) (e : ImageEntry) : Prop :=
  exists k : nat,
    k < length store
    /\ url e = String.append "blob:" (pretty k)
    /\ src (img e) = url e.

(** A closure environment as [handleImageUpload] makes them. *)
Definition closure_ok (store : list File) (c : UploadClosure) : Prop :=
  1 <= files_length c
  /\ length (newEntries c) = files_length c
  /\ Forall (entry_registered store) (newEntries c).

Definition world_ok (w : World) : Prop :=
  (isPlaying (react w) = true -> images (react w) <> [])
  /\ Forall (entry_registered (objectURLs w)) (images (react w))
  /\ Forall (closure_ok (objectURLs w)) (closures w).

(** The four sliders are at positions of their range. *)
Definition sliders_ok (s : PlayerState) : Prop :=
  (0 <= speed s <= 100)%Z /\ (0 <= delay s <= 100)%Z
  /\ (0 <= shade s <= 100)%Z /\ (0 <= volume s <= 100)%Z.

(** * Properties *)

Lemma slider_positions_spec (s : Z) :
  (0 <= s <= 100)%Z -> In s slider_positions.
Proof.
  intros Hs. unfold slider_positions.
  apply in_map_iff. exists (Z.to_nat s). split; [lia|].
  apply in_seq. lia.
Qed.

(** A property checked at every slider position holds at every integer of
    [0,100]. *)
Lemma forall_slider (P : Z -> bool) :
  forallb P slider_positions = true ->
  forall s : Z, (0 <= s <= 100)%Z -> P s = true.
Proof.
  intros Hall s Hs.
  rewrite forallb_forall in Hall.
  apply Hall, slider_positions_spec, Hs.
Qed.

Lemma forall_slider2 (P : Z -> Z -> bool) :
  forallb (fun s1 => forallb (P s1) slider_positions) slider_positions = true ->
  forall s1 s2 : Z, (0 <= s1 <= 100)%Z -> (0 <= s2 <= 100)%Z -> P s1 s2 = true.
Proof.
  intros Hall s1 s2 H1 H2.
  apply (forall_slider (P s1)); [|exact H2].
  apply (forall_slider (fun s1 => forallb (P s1) slider_positions) Hall s1 H1).
Qed.

(** *** Exact arithmetic *)

Section ExactMappings.
Local Open Scope Q_scope.

Lemma mapSpeedToDuration_exact (speed : Q) :
  mapSpeedToDuration speed == 4000 - (speed / 100) * (4000 - 600).
Proof. unfold mapSpeedToDuration; simpl. reflexivity. Qed.

Lemma mapSpeedToDuration_affine (speed : Q) :
  mapSpeedToDuration speed == 4000 - 34 * speed.
Proof. unfold mapSpeedToDuration; simpl. field. Qed.

Lemma mapDelayToMs_exact (delay : Q) :
  mapDelayToMs delay == 500 + (delay / 100) * (6000 - 500).
Proof. unfold mapDelayToMs; simpl. reflexivity. Qed.

Lemma mapDelayToMs_affine (delay : Q) :
  mapDelayToMs delay == 500 + 55 * delay.
Proof. unfold mapDelayToMs; simpl. field. Qed.

Lemma mapSpeedToDuration_decreasing (s1 s2 : Q) :
  s1 < s2 -> mapSpeedToDuration s2 < mapSpeedToDuration s1.
Proof. intros Hlt. rewrite !mapSpeedToDuration_affine. lra. Qed.

Lemma mapDelayToMs_increasing (d1 d2 : Q) :
  d1 < d2 -> mapDelayToMs d1 < mapDelayToMs d2.
Proof. intros Hlt. rewrite !mapDelayToMs_affine. lra. Qed.

End ExactMappings.

(** *** Binary64 arithmetic at the slider positions *)

Section Binary64Mappings.
Import Binary64.
Local Open Scope Z_scope.

Lemma mapSpeedToDuration_b64_ends :
  mapSpeedToDuration (of_Z 0) = of_Z 4000 /\
  mapSpeedToDuration (of_Z 100) = of_Z 600.
Proof. split; vm_compute; reflexivity. Qed.

Lemma mapDelayToMs_b64_ends :
  mapDelayToMs (of_Z 0) = of_Z 500 /\
  mapDelayToMs (of_Z 100) = of_Z 6000.
Proof. split; vm_compute; reflexivity. Qed.

Lemma mapSpeedToDuration_b64_close (s : Z) :
  0 <= s <= 100 ->
  within (mapSpeedToDuration (of_Z s))
         (4000 - (inject_Z s / 100) * (4000 - 600))%Q rounding_eps = true.
Proof.
  apply (forall_slider (fun s =>
    within (mapSpeedToDuration (of_Z s))
           (4000 - (inject_Z s / 100) * (4000 - 600))%Q rounding_eps)).
  vm_compute; reflexivity.
Qed.

Lemma mapDelayToMs_b64_close (d : Z) :
  0 <= d <= 100 ->
  within (mapDelayToMs (of_Z d))
         (500 + (inject_Z d / 100) * (6000 - 500))%Q rounding_eps = true.
Proof.
  apply (forall_slider (fun d =>
    within (mapDelayToMs (of_Z d))
           (500 + (inject_Z d / 100) * (6000 - 500))%Q rounding_eps)).
  vm_compute; reflexivity.
Qed.

Lemma mapSpeedToDuration_b64_decreasing (s1 s2 : Z) :
  0 <= s1 -> s1 < s2 -> s2 <= 100 ->
  num_ltb (mapSpeedToDuration (of_Z s2)) (mapSpeedToDuration (of_Z s1)) = true.
Proof.
  intros H0 Hlt H100.
  pose (P := fun s1 s2 : Z =>
    if s1 <? s2
    then num_ltb (mapSpeedToDuration (of_Z s2)) (mapSpeedToDuration (of_Z s1))
    else true).
  assert (HP : P s1 s2 = true).
  { apply forall_slider2; [vm_compute; reflexivity | lia | lia]. }
  unfold P in HP. destruct (Z.ltb_spec s1 s2); [exact HP | lia].
Qed.

Lemma mapDelayToMs_b64_increasing (d1 d2 : Z) :
  0 <= d1 -> d1 < d2 -> d2 <= 100 ->
  num_ltb (mapDelayToMs (of_Z d1)) (mapDelayToMs (of_Z d2)) = true.
Proof.
  intros H0 Hlt H100.
  pose (P := fun d1 d2 : Z =>
    if d1 <? d2
    then num_ltb (mapDelayToMs (of_Z d1)) (mapDelayToMs (of_Z d2))
    else true).
  assert (HP : P d1 d2 = true).
  { apply forall_slider2; [vm_compute; reflexivity | lia | lia]. }
  unfold P in HP. destruct (Z.ltb_spec d1 d2); [exact HP | lia].
Qed.

(** Rounding is visible: at speed 58 the double computed is one unit in the
    last place (2^-42) above the exact 2028. *)
Lemma mapSpeedToDuration_b64_58 :
  to_Q (mapSpeedToDuration (of_Z 58)) = Some (2028 + Qmake 1 (2 ^ 42))%Q.
Proof. vm_compute. reflexivity. Qed.

End Binary64Mappings.

(** *** The mappings, in both arithmetics *)

(** C4.  [mapSpeedToDuration speed] is [4000 - (speed/100) * (4000 - 600)]:
    in exact arithmetic for every [speed] of [0,100], with value 4000 at 0
    and 600 at 100, strictly decreasing; in binary64 the two end values are
    exactly 4000 and 600, at every slider position the double computed is
    within [rounding_eps] of the exact value, and the mapping is strictly
    decreasing over the slider positions. *)
Theorem mapSpeedToDuration_spec :
  (forall speed : Q, 0 <= speed -> speed <= 100 ->
     mapSpeedToDuration speed == 4000 - (speed / 100) * (4000 - 600))%Q
  /\ (mapSpeedToDuration 0 == 4000)%Q
  /\ (mapSpeedToDuration 100 == 600)%Q
  /\ (forall s1 s2 : Q, 0 <= s1 -> s1 < s2 -> s2 <= 100 ->
        mapSpeedToDuration s2 < mapSpeedToDuration s1)%Q
  /\ mapSpeedToDuration (Binary64.of_Z 0) = Binary64.of_Z 4000
  /\ mapSpeedToDuration (Binary64.of_Z 100) = Binary64.of_Z 600
  /\ (forall s : Z, (0 <= s)%Z -> (s <= 100)%Z ->
        Binary64.within (mapSpeedToDuration (Binary64.of_Z s))
          (4000 - (inject_Z s / 100) * (4000 - 600))%Q
          Binary64.rounding_eps = true)
  /\ (forall s1 s2 : Z, (0 <= s1)%Z -> (s1 < s2)%Z -> (s2 <= 100)%Z ->
        num_ltb (mapSpeedToDuration (Binary64.of_Z s2))
                (mapSpeedToDuration (Binary64.of_Z s1)) = true).
Proof.
  split; [|split; [|split; [|split; [|split; [|split; [|split]]]]]].
  - intros speed _ _. apply mapSpeedToDuration_exact.
  - rewrite mapSpeedToDuration_affine. reflexivity.
  - rewrite mapSpeedToDuration_affine. reflexivity.
  - intros s1 s2 _ Hlt _. apply mapSpeedToDuration_decreasing, Hlt.
  - apply mapSpeedToDuration_b64_ends.
  - apply mapSpeedToDuration_b64_ends.
  - intros s H0 H100. apply mapSpeedToDuration_b64_close. lia.
  - apply mapSpeedToDuration_b64_decreasing.
Qed.

Lemma mapSpeedToDuration_spec_witness :
  (mapSpeedToDuration (50 : Q) == 4000 - (50 / 100) * (4000 - 600))%Q
  /\ (mapSpeedToDuration (75 : Q) < mapSpeedToDuration (50 : Q))%Q
  /\ Binary64.within (mapSpeedToDuration (Binary64.of_Z 50))
       (4000 - (inject_Z 50 / 100) * (4000 - 600))%Q
       Binary64.rounding_eps = true
  /\ num_ltb (mapSpeedToDuration (Binary64.of_Z 75))
             (mapSpeedToDuration (Binary64.of_Z 50)) = true.
Proof.
  destruct mapSpeedToDuration_spec as (Hq & _ & _ & Hdec & _ & _ & Hb & Hbdec).
  split; [|split; [|split]].
  - apply (Hq 50%Q); unfold Qle; simpl; lia.
  - apply (Hdec 50%Q 75%Q); [unfold Qle | unfold Qlt | unfold Qle]; simpl; lia.
  - apply (Hb 50%Z); lia.
  - apply (Hbdec 50%Z 75%Z); lia.
Defined.

(** C5.  [mapDelayToMs delay] is [500 + (delay/100) * (6000 - 500)]: in
    exact arithmetic for every [delay] of [0,100], with value 500 at 0 and
    6000 at 100, strictly increasing; in binary64 the two end values are
    exactly 500 and 6000, at every slider position the double computed is
    within [rounding_eps] of the exact value, and the mapping is strictly
    increasing over the slider positions. *)
Theorem mapDelayToMs_spec :
  (forall delay : Q, 0 <= delay -> delay <= 100 ->
     mapDelayToMs delay == 500 + (delay / 100) * (6000 - 500))%Q
  /\ (mapDelayToMs 0 == 500)%Q
  /\ (mapDelayToMs 100 == 6000)%Q
  /\ (forall d1 d2 : Q, 0 <= d1 -> d1 < d2 -> d2 <= 100 ->
        mapDelayToMs d1 < mapDelayToMs d2)%Q
  /\ mapDelayToMs (Binary64.of_Z 0) = Binary64.of_Z 500
  /\ mapDelayToMs (Binary64.of_Z 100) = Binary64.of_Z 6000
  /\ (forall d : Z, (0 <= d)%Z -> (d <= 100)%Z ->
        Binary64.within (mapDelayToMs (Binary64.of_Z d))
          (500 + (inject_Z d / 100) * (6000 - 500))%Q
          Binary64.rounding_eps = true)
  /\ (forall d1 d2 : Z, (0 <= d1)%Z -> (d1 < d2)%Z -> (d2 <= 100)%Z ->
        num_ltb (mapDelayToMs (Binary64.of_Z d1))
                (mapDelayToMs (Binary64.of_Z d2)) = true).
Proof.
  split; [|split; [|split; [|split; [|split; [|split; [|split]]]]]].
  - intros delay _ _. apply mapDelayToMs_exact.
  - rewrite mapDelayToMs_affine. reflexivity.
  - rewrite mapDelayToMs_affine. reflexivity.
  - intros d1 d2 _ Hlt _. apply mapDelayToMs_increasing, Hlt.
  - apply mapDelayToMs_b64_ends.
  - apply mapDelayToMs_b64_ends.
  - intros d H0 H100. apply mapDelayToMs_b64_close. lia.
  - apply mapDelayToMs_b64_increasing.
Qed.

Lemma mapDelayToMs_spec_witness :
  (mapDelayToMs (40 : Q) == 500 + (40 / 100) * (6000 - 500))%Q
  /\ (mapDelayToMs (40 : Q) < mapDelayToMs (90 : Q))%Q
  /\ Binary64.within (mapDelayToMs (Binary64.of_Z 40))
       (500 + (inject_Z 40 / 100) * (6000 - 500))%Q
       Binary64.rounding_eps = true
  /\ num_ltb (mapDelayToMs (Binary64.of_Z 40))
             (mapDelayToMs (Binary64.of_Z 90)) = true.
Proof.
  destruct mapDelayToMs_spec as (Hq & _ & _ & Hinc & _ & _ & Hb & Hbinc).
  split; [|split; [|split]].
  - apply (Hq 40%Q); unfold Qle; simpl; lia.
  - apply (Hinc 40%Q 90%Q); [unfold Qle | unfold Qlt | unfold Qle]; simpl; lia.
  - apply (Hb 40%Z); lia.
  - apply (Hbinc 40%Z 90%Z); lia.
Defined.

(** ** The shade overlay *)

Section Frames.
Context {N : Type} `{JSNumber N}.

(** What a frame paints: the cleared canvas, the background, the image at
    the fade alpha and, when [shade > 0] only, one black rectangle over
    the whole canvas. *)
Lemma frame_paints (c : RenderEnv N) (time : N) :
  frame c time =
    [ Cleared (num_of_Z 0) (num_of_Z 0) (canvas_width c) (canvas_height c);
      Filled "#05060a" (num_of_Z 1) (num_of_Z 0) (num_of_Z 0)
        (canvas_width c) (canvas_height c);
      Drawn (env_img c)
        (num_min (num_of_Z 1) (num_div (num_sub time (start c)) (duration c)))
        (num_div (num_neg (drawWidth c)) (num_of_Z 2))
        (num_div (num_neg (drawHeight c)) (num_of_Z 2))
        (drawWidth c) (drawHeight c) ]
    ++ (if num_ltb (num_of_Z 0) (env_shade c)
        then [ Filled "#000000"
                 (num_mul (num_div (env_shade c) (num_of_Z 100))
                          (num_of_dec (65 # 100)))
                 (num_of_Z 0) (num_of_Z 0)
                 (canvas_width c) (canvas_height c) ]
        else []).
Proof.
  unfold frame, render, shadeOverlay. simpl.
  destruct (num_ltb (num_of_Z 0) (env_shade c)); reflexivity.
Qed.

Lemma overlay_alphas_frame (c : RenderEnv N) (time : N) :
  overlay_alphas (frame c time) =
    if num_ltb (num_of_Z 0) (env_shade c)
    then [ num_mul (num_div (env_shade c) (num_of_Z 100))
                   (num_of_dec (65 # 100)) ]
    else [].
Proof.
  rewrite frame_paints.
  destruct (num_ltb (num_of_Z 0) (env_shade c)); reflexivity.
Qed.

End Frames.

Lemma Q_shade_positive (s : Z) :
  num_ltb (num_of_Z 0) (num_of_Z s : Q) = (0 <? s)%Z.
Proof.
  simpl. unfold Qle_bool. simpl.
  rewrite Z.mul_1_r.
  destruct (Z.leb_spec s 0), (Z.ltb_spec 0 s); simpl; (reflexivity || lia).
Qed.

Lemma b64_shade_positive (s : Z) :
  (0 <= s <= 100)%Z ->
  num_ltb (num_of_Z 0) (num_of_Z s : Binary64.b64) = (0 <? s)%Z.
Proof.
  intros Hs.
  apply Bool.eqb_prop.
  apply (forall_slider (fun s =>
    Bool.eqb (num_ltb (num_of_Z 0) (num_of_Z s : Binary64.b64)) (0 <? s)%Z));
    [vm_compute; reflexivity | exact Hs].
Qed.

(** C6.  At a shade of [s] in [0,100] every frame lays the black rectangle
    over the canvas exactly when [s > 0], and then once, at alpha
    [(s/100) * 0.65]; that alpha is 0.65 at [s = 100], exactly so in
    binary64, where 0.65 is the double the literal denotes; at [s = 0]
    nothing is laid over the canvas, and the formula gives 0 as well. *)
Theorem shade_overlay_alpha (s : Z) :
  (0 <= s)%Z -> (s <= 100)%Z ->
  (forall (c : RenderEnv Q) (time : Q), env_shade c = inject_Z s ->
     overlay_alphas (frame c time) =
       if (0 <? s)%Z then [ ((inject_Z s / 100) * (65 # 100))%Q ] else [])
  /\ (forall (c : RenderEnv Binary64.b64) (time : Binary64.b64),
        env_shade c = Binary64.of_Z s ->
        overlay_alphas (frame c time) =
          if (0 <? s)%Z
          then [ num_mul (num_div (Binary64.of_Z s) (Binary64.of_Z 100))
                         (Binary64.of_dec (65 # 100)) ]
          else [])
  /\ ((inject_Z 100 / 100) * (65 # 100) == 65 # 100)%Q
  /\ ((inject_Z 0 / 100) * (65 # 100) == 0)%Q
  /\ num_mul (num_div (Binary64.of_Z 100) (Binary64.of_Z 100))
             (Binary64.of_dec (65 # 100)) = Binary64.of_dec (65 # 100)
  /\ num_mul (num_div (Binary64.of_Z 0) (Binary64.of_Z 100))
             (Binary64.of_dec (65 # 100)) = S754_zero false.
Proof.
  intros H0 H100.
  split; [|split; [|split; [|split; [|split]]]].
  - intros c time Hc.
    rewrite overlay_alphas_frame, Hc.
    change (inject_Z s) with (num_of_Z s : Q).
    rewrite Q_shade_positive. reflexivity.
  - intros c time Hc.
    rewrite overlay_alphas_frame, Hc.
    change (Binary64.of_Z s) with (num_of_Z s : Binary64.b64).
    rewrite b64_shade_positive by lia. reflexivity.
  - reflexivity.
  - reflexivity.
  - vm_compute. reflexivity.
  - vm_compute. reflexivity.
Qed.

Lemma shade_overlay_alpha_witness :
  overlay_alphas
    (frame {| canvas_width := 800; canvas_height := 600;
              env_img := {| src := "blob:0"; onload := Some 0%nat |};
              start := 0; duration := 1960;
              centerX := 400; centerY := 300; angleRad := 0;
              drawWidth := 640; drawHeight := 480;
              env_shade := inject_Z 20 |}%Q 980%Q)
  = [ ((inject_Z 20 / 100) * (65 # 100))%Q ].
Proof.
  destruct (shade_overlay_alpha 20) as (Hq & _); [lia | lia |].
  apply Hq. reflexivity.
Defined.

(** ** The upload handler *)

Lemma upload_fold (k : nat) (fs : list File) :
  forall (store : list File) (acc : list ImageEntry),
    length (snd (foldl (upload_file k) (store, acc) fs))
      = length acc + length fs
    /\ (Forall (fun e => onload (img e) = Some k) acc ->
        Forall (fun e => onload (img e) = Some k)
               (snd (foldl (upload_file k) (store, acc) fs)))
    /\ length (fst (foldl (upload_file k) (store, acc) fs))
      = length store + length fs.
Proof.
  induction fs as [|f fs IH]; intros store acc; simpl.
  - repeat split; auto with arith.
  - unfold upload_file at 2 4 6. simpl.
    destruct (IH (store ++ [f])
               (acc ++ [ {| url := String.append "blob:" (pretty (length store));
                            img := {| src := String.append "blob:" (pretty (length store));
                                      onload := Some k |} |} ]))
      as (Hlen & Hall & Hst).
    split; [|split].
    + rewrite Hlen, length_app. simpl. lia.
    + intros Hacc. apply Hall.
      apply Forall_app. split; [exact Hacc|]. constructor; [reflexivity|constructor].
    + rewrite Hst, length_app. simpl. lia.
Qed.

Lemma batch_entries_length (fs : list File) (w : World) :
  length (batch_entries fs w) = length fs.
Proof.
  unfold batch_entries.
  destruct (upload_fold (length (closures w)) fs (objectURLs w) []) as (Hlen & _).
  exact Hlen.
Qed.

Lemma batch_entries_onload (fs : list File) (w : World) :
  Forall (fun e => onload (img e) = Some (length (closures w)))
         (batch_entries fs w).
Proof.
  unfold batch_entries.
  destruct (upload_fold (length (closures w)) fs (objectURLs w) []) as (_ & Hall & _).
  apply Hall. constructor.
Qed.

Lemma handleImageUpload_nonempty (fs : list File) (w : World) :
  fs <> [] ->
  react (handleImageUpload (Some fs) w) = react w
  /\ closures (handleImageUpload (Some fs) w)
       = closures w ++ [batch_closure fs w]
  /\ length (objectURLs (handleImageUpload (Some fs) w))
       = length (objectURLs w) + length fs.
Proof.
  intros Hne. unfold handleImageUpload, batch_closure, batch_entries.
  destruct fs as [|f fs]; [congruence|].
  change (length (f :: fs) =? 0)%nat with false. cbv iota.
  pose proof (upload_fold (length (closures w)) (f :: fs) (objectURLs w) [])
    as (_ & _ & Hst).
  destruct (foldl (upload_file (length (closures w))) (objectURLs w, []) (f :: fs))
    as [store' entries]; simpl in *.
  auto.
Qed.

Lemma handleImageUpload_react (files : option (list File)) (w : World) :
  react (handleImageUpload files w) = react w.
Proof.
  destruct files as [fs|]; [|reflexivity].
  destruct fs as [|f fs]; [reflexivity|].
  apply handleImageUpload_nonempty. discriminate.
Qed.

Lemma handleImageUpload_closures (files : option (list File)) (w : World) :
  exists more, closures (handleImageUpload files w) = closures w ++ more.
Proof.
  destruct files as [fs|]; [|exists []; simpl; rewrite app_nil_r; reflexivity].
  destruct fs as [|f fs]; [exists []; simpl; rewrite app_nil_r; reflexivity|].
  eexists. apply handleImageUpload_nonempty. discriminate.
Qed.

(** ** The [onload] callback *)

(** One run of the callback in an existing environment: the counter goes
    up by one, and the React state changes only when it reaches
    [files.length]. *)
Lemma img_onload_spec (k : nat) (w : World) (c : UploadClosure) :
  closures w !! k = Some c ->
  let c' := {| files_length := files_length c;
               newEntries := newEntries c;
               loadedCount := loadedCount c + 1;
               seen_isPlaying := seen_isPlaying c |} in
  closures (img_onload k w) = <[k := c']> (closures w)
  /\ objectURLs (img_onload k w) = objectURLs w
  /\ react (img_onload k w) =
       if (loadedCount c + 1 =? files_length c)%nat
       then (if negb (seen_isPlaying c)
             then setIsPlaying true
                    (setImages (fun prev => prev ++ newEntries c) (react w))
             else setImages (fun prev => prev ++ newEntries c) (react w))
       else react w.
Proof.
  intros Hk c'. unfold img_onload. rewrite Hk. fold c'. simpl.
  destruct (loadedCount c + 1 =? files_length c)%nat; simpl;
    [destruct (seen_isPlaying c); simpl|]; auto.
Qed.

Lemma img_onload_missing (k : nat) (w : World) :
  closures w !! k = None -> img_onload k w = w.
Proof. intros Hk. unfold img_onload. rewrite Hk. reflexivity. Qed.

Lemma img_onload_currentIndex (k : nat) (w : World) :
  currentIndex (react (img_onload k w)) = currentIndex (react w).
Proof.
  destruct (closures w !! k) as [c|] eqn:Hk.
  - destruct (img_onload_spec k w c Hk) as (_ & _ & ->).
    destruct (loadedCount c + 1 =? files_length c)%nat;
      [destruct (seen_isPlaying c)|]; reflexivity.
  - rewrite img_onload_missing by exact Hk. reflexivity.
Qed.

Lemma img_onload_images (k : nat) (w : World) :
  exists more, images (react (img_onload k w)) = images (react w) ++ more.
Proof.
  destruct (closures w !! k) as [c|] eqn:Hk.
  - destruct (img_onload_spec k w c Hk) as (_ & _ & ->).
    destruct (loadedCount c + 1 =? files_length c)%nat;
      [destruct (seen_isPlaying c)|]; simpl;
      (eexists; reflexivity) || (exists []; rewrite app_nil_r; reflexivity).
  - rewrite img_onload_missing by exact Hk.
    exists []; rewrite app_nil_r; reflexivity.
Qed.

Lemma img_onload_stays_playing (k : nat) (w : World) :
  isPlaying (react w) = true -> isPlaying (react (img_onload k w)) = true.
Proof.
  intros Hp.
  destruct (closures w !! k) as [c|] eqn:Hk.
  - destruct (img_onload_spec k w c Hk) as (_ & _ & ->).
    destruct (loadedCount c + 1 =? files_length c)%nat;
      [destruct (seen_isPlaying c)|]; simpl; auto.
  - rewrite img_onload_missing by exact Hk. exact Hp.
Qed.

(** ** Traces in which one batch decodes *)

Lemma step_closures_react (e : Event) (w w' : World) :
  (forall i, e <> ImageLoad i) ->
  step e w = Some w' ->
  (exists more, closures w' = closures w ++ more)
  /\ images (react w') = images (react w).
Proof.
  intros Hnl Hstep. destruct e; simpl in Hstep.
  - inversion Hstep; subst. split.
    + apply handleImageUpload_closures.
    + rewrite handleImageUpload_react. reflexivity.
  - exfalso. eapply Hnl. reflexivity.
  - inversion Hstep; subst. unfold playPauseClick.
    destruct (length (images (react w)) =? 0)%nat; simpl;
      (split; [exists []; rewrite app_nil_r|]; reflexivity).
  - inversion Hstep; subst; simpl.
    split; [exists []; rewrite app_nil_r|]; reflexivity.
  - inversion Hstep; subst; simpl.
    split; [exists []; rewrite app_nil_r|]; reflexivity.
  - inversion Hstep; subst; simpl.
    split; [exists []; rewrite app_nil_r|]; reflexivity.
  - inversion Hstep; subst; simpl.
    split; [exists []; rewrite app_nil_r|]; reflexivity.
  - unfold advanceTimeout in Hstep.
    destruct (advanceTimer (react w)).
    + destruct (advance _ _ _); inversion Hstep; subst; simpl.
      split; [exists []; rewrite app_nil_r|]; reflexivity.
    + inversion Hstep; subst.
      split; [exists []; rewrite app_nil_r|]; reflexivity.
Qed.

Lemma step_tracks_other (e : Event) (w w' : World) (k : nat) (c : UploadClosure) :
  closures w !! k = Some c ->
  loads_of [e] = [] ->
  step e w = Some w' ->
  closures w' !! k = Some c /\ images (react w') = images (react w).
Proof.
  intros Hk Hl Hstep.
  destruct (step_closures_react e w w') as ((more & Hcl) & Him);
    [intros i ->; discriminate | exact Hstep |].
  rewrite Hcl, Him. split; [|reflexivity].
  rewrite lookup_app_l; [exact Hk | eapply lookup_lt_Some; eauto].
Qed.

Lemma loaded_0 (c : UploadClosure) : loaded 0 c = c.
Proof. destruct c; unfold loaded; simpl. f_equal. lia. Qed.

Lemma loaded_loaded (n m : nat) (c : UploadClosure) :
  loaded m (loaded n c) = loaded (n + m) c.
Proof. unfold loaded; simpl. f_equal. lia. Qed.

Lemma completes_0 (c : UploadClosure) : completes 0 c = false.
Proof.
  unfold completes. rewrite Nat.add_0_r.
  destruct (Nat.ltb_spec (loadedCount c) (files_length c)),
           (Nat.leb_spec (files_length c) (loadedCount c)); simpl; auto; lia.
Qed.

Lemma completes_1 (c : UploadClosure) :
  completes 1 c = (loadedCount c + 1 =? files_length c)%nat.
Proof.
  unfold completes.
  destruct (Nat.ltb_spec (loadedCount c) (files_length c)),
           (Nat.leb_spec (files_length c) (loadedCount c + 1)),
           (Nat.eqb_spec (loadedCount c + 1) (files_length c));
    simpl; auto; lia.
Qed.

Lemma step_tracks (e : Event) (w w' : World) (k : nat) (c : UploadClosure) :
  closures w !! k = Some c ->
  Forall (fun i => onload i = Some k) (loads_of [e]) ->
  step e w = Some w' ->
  closures w' !! k = Some (loaded (length (loads_of [e])) c)
  /\ images (react w') =
       images (react w) ++
       (if completes (length (loads_of [e])) c then newEntries c else []).
Proof.
  intros Hk Hloads Hstep.
  destruct (loads_of [e]) as [|i rest] eqn:Hl.
  - destruct (step_tracks_other e w w' k c Hk Hl Hstep) as (Hcl & Him).
    simpl. rewrite loaded_0, completes_0, app_nil_r. auto.
  - destruct e; try discriminate Hl.
    simpl in Hl. inversion Hl; subst. clear Hl.
    inversion Hloads as [|? ? Hi _]; subst.
    simpl in Hstep. rewrite Hi in Hstep. inversion Hstep; subst.
    destruct (img_onload_spec k w c Hk) as (Hcl & _ & Hre).
    simpl. rewrite Hcl, Hre, completes_1. split.
    + rewrite list_lookup_insert_eq by (eapply lookup_lt_Some; eauto).
      reflexivity.
    + destruct (loadedCount c + 1 =? files_length c)%nat;
        [destruct (seen_isPlaying c); reflexivity|].
      rewrite app_nil_r. reflexivity.
Qed.

Lemma loads_of_cons (e : Event) (evs : list Event) :
  loads_of (e :: evs) = loads_of [e] ++ loads_of evs.
Proof. unfold loads_of. simpl. rewrite app_nil_r. reflexivity. Qed.

Lemma loads_of_loads (loads : list HTMLImageElement) :
  loads_of (map ImageLoad loads) = loads.
Proof.
  induction loads as [|i loads IH]; [reflexivity|].
  change (map ImageLoad (i :: loads)) with (ImageLoad i :: map ImageLoad loads).
  rewrite loads_of_cons, IH. reflexivity.
Qed.

Lemma completes_split (n m : nat) (c : UploadClosure) :
  n <= 1 ->
  (if completes n c then newEntries c else []) ++
  (if completes m (loaded n c) then newEntries c else [])
  = if completes (n + m) c then newEntries c else [].
Proof.
  intros Hn. unfold completes, loaded; simpl.
  destruct (Nat.ltb_spec (loadedCount c) (files_length c)),
           (Nat.leb_spec (files_length c) (loadedCount c + n)),
           (Nat.ltb_spec (loadedCount c + n) (files_length c)),
           (Nat.leb_spec (files_length c) (loadedCount c + n + m)),
           (Nat.leb_spec (files_length c) (loadedCount c + (n + m)));
    simpl; rewrite ?app_nil_r; auto; lia.
Qed.

(** Along a trace whose loads all belong to the environment [k], the
    counter of [k] counts them, and the visible list grows once, by the
    entries of [k], at the load that completes the batch. *)
Lemma run_tracks (evs : list Event) :
  forall (w w' : World) (k : nat) (c : UploadClosure),
    closures w !! k = Some c ->
    Forall (fun i => onload i = Some k) (loads_of evs) ->
    run evs w = Some w' ->
    closures w' !! k = Some (loaded (length (loads_of evs)) c)
    /\ images (react w') =
         images (react w) ++
         (if completes (length (loads_of evs)) c then newEntries c else []).
Proof.
  induction evs as [|e evs IH]; intros w w' k c Hk Hloads Hrun.
  - simpl in *. inversion Hrun; subst.
    rewrite loaded_0, completes_0, app_nil_r. auto.
  - simpl in Hrun. destruct (step e w) as [w1|] eqn:Hstep; [|discriminate].
    rewrite loads_of_cons in Hloads |- *.
    apply Forall_app in Hloads as (Hl1 & Hl2).
    destruct (step_tracks e w w1 k c Hk Hl1 Hstep) as (Hk1 & Him1).
    destruct (IH w1 w' k _ Hk1 Hl2 Hrun) as (Hk' & Him').
    rewrite length_app.
    split.
    + rewrite Hk', loaded_loaded. reflexivity.
    + rewrite Him', Him1, <- app_assoc. f_equal.
      change (newEntries (loaded (length (loads_of [e])) c)) with (newEntries c).
      apply completes_split.
      destruct e; simpl; lia.
Qed.

Lemma run_loads_total (loads : list HTMLImageElement) :
  forall w : World, exists w', run (map ImageLoad loads) w = Some w'.
Proof.
  induction loads as [|i loads IH]; intros w; simpl.
  - eexists; reflexivity.
  - destruct (onload i); apply IH.
Qed.

Lemma completes_batch (n : nat) (fs : list File) (w : World) :
  fs <> [] ->
  completes n (batch_closure fs w) = negb (n <? length fs)%nat.
Proof.
  intros Hne. unfold completes, batch_closure; simpl.
  assert (0 < length fs) by (destruct fs; [congruence | simpl; lia]).
  destruct (Nat.ltb_spec 0 (length fs)), (Nat.leb_spec (length fs) n),
           (Nat.ltb_spec n (length fs)); simpl; auto; lia.
Qed.

Lemma batch_closure_lookup (fs : list File) (w : World) :
  fs <> [] ->
  closures (handleImageUpload (Some fs) w) !! length (closures w)
    = Some (batch_closure fs w).
Proof.
  intros Hne.
  destruct (handleImageUpload_nonempty fs w Hne) as (_ & -> & _).
  apply list_lookup_middle. reflexivity.
Qed.

(** Any trace after the upload that delivers loads of this batch only: the
    visible list is the one before the upload until [files.length] loads
    have been delivered, and that list followed by the batch from then on. *)
Lemma run_batch (fs : list File) (w w' : World) (evs : list Event) :
  fs <> [] ->
  Forall (fun i => onload i = Some (length (closures w))) (loads_of evs) ->
  run evs (handleImageUpload (Some fs) w) = Some w' ->
  images (react w') =
    images (react w) ++
    (if (length (loads_of evs) <? length fs)%nat then [] else batch_entries fs w).
Proof.
  intros Hne Hloads Hrun.
  destruct (run_tracks evs _ _ _ _ (batch_closure_lookup fs w Hne) Hloads Hrun)
    as (_ & ->).
  rewrite handleImageUpload_react, completes_batch by exact Hne.
  destruct (length (loads_of evs) <? length fs)%nat; reflexivity.
Qed.



(** ** The advance timer *)

Lemma random_index_lt (r : Q) (n : nat) :
  unit_draw r -> 0 < n -> random_index r n < n.
Proof.
  intros [Hr0 Hr1] Hn. unfold random_index.
  set (x := (r * inject_Z (Z.of_nat n))%Q).
  assert (Hpos : (0 < inject_Z (Z.of_nat n))%Q).
  { change 0%Q with (inject_Z 0). rewrite <- Zlt_Qlt. lia. }
  assert (Hx0 : (0 <= x)%Q).
  { unfold x. apply Qmult_le_0_compat; [exact Hr0 | apply Qlt_le_weak, Hpos]. }
  assert (Hx1 : (x < inject_Z (Z.of_nat n))%Q).
  { unfold x.
    pose proof (Qmult_lt_compat_r r 1 (inject_Z (Z.of_nat n)) Hpos Hr1) as Hlt.
    rewrite Qmult_1_l in Hlt. exact Hlt. }
  assert (Hf0 : (0 <= Qfloor x)%Z).
  { change 0%Z with (Qfloor 0). apply Qfloor_resp_le, Hx0. }
  assert (Hf1 : (Qfloor x < Z.of_nat n)%Z).
  { rewrite Zlt_Qlt. eapply Qle_lt_trans; [apply Qfloor_le | exact Hx1]. }
  lia.
Qed.

Lemma random_index_zero (n : nat) : random_index 0 n = 0.
Proof.
  unfold random_index.
  rewrite (Qfloor_comp (0 * inject_Z (Z.of_nat n)) 0) by ring.
  reflexivity.
Qed.

Lemma random_index_half (n : nat) : 2 <= n -> 1 <= random_index (1 # 2) n.
Proof.
  intros Hn. unfold random_index.
  assert (Hq : (inject_Z 2 <= inject_Z (Z.of_nat n))%Q)
    by (rewrite <- Zle_Qle; lia).
  change (inject_Z 2) with 2%Q in Hq.
  assert (Hh : (1 <= (1 # 2) * inject_Z (Z.of_nat n))%Q).
  { generalize dependent (inject_Z (Z.of_nat n)). intros y Hy. lra. }
  pose proof (Qfloor_resp_le _ _ Hh) as H1.
  change (Qfloor 1) with 1%Z in H1.
  lia.
Qed.

Lemma unit_draw_zero : unit_draw 0.
Proof. split; [apply Qle_refl | reflexivity]. Qed.

Lemma unit_draw_half : unit_draw (1 # 2).
Proof. split; [discriminate | reflexivity]. Qed.

(** The loop leaves at once when entered with [next <> prev]. *)
Lemma reroll_differs (draws : list Q) (n prev next : nat) :
  next <> prev -> reroll draws n prev next = Some next.
Proof.
  intros Hne. destruct draws; simpl;
    destruct (Nat.eqb_spec next prev); congruence.
Qed.

Lemma reroll_cons (r : Q) (draws : list Q) (n prev : nat) :
  reroll (r :: draws) n prev prev = reroll draws n prev (random_index r n).
Proof. simpl. rewrite Nat.eqb_refl. reflexivity. Qed.

(** While every draw selects [prev] again the loop keeps running. *)
Lemma reroll_same (draws : list Q) (n prev : nat) :
  Forall (fun r => random_index r n = prev) draws ->
  reroll draws n prev prev = None.
Proof.
  induction draws as [|r draws IH]; intros Hall.
  - simpl. rewrite Nat.eqb_refl. reflexivity.
  - apply Forall_cons in Hall as [Hr Hrest].
    rewrite reroll_cons, Hr. apply IH, Hrest.
Qed.

(** It leaves with the first draw that selects another index. *)
Lemma reroll_first (l1 l2 : list Q) (r : Q) (n prev : nat) :
  Forall (fun r' => random_index r' n = prev) l1 ->
  random_index r n <> prev ->
  reroll (l1 ++ r :: l2) n prev prev = Some (random_index r n).
Proof.
  induction l1 as [|r1 l1 IH]; intros Hall Hr.
  - simpl app. rewrite reroll_cons. apply reroll_differs, Hr.
  - apply Forall_cons in Hall as [Hr1 Hrest].
    change ((r1 :: l1) ++ r :: l2) with (r1 :: (l1 ++ r :: l2)).
    rewrite reroll_cons, Hr1. apply IH; assumption.
Qed.

Lemma first_other_draw (draws : list Q) (n prev : nat) :
  Exists (fun r => random_index r n <> prev) draws ->
  exists l1 r l2,
    draws = l1 ++ r :: l2
    /\ Forall (fun r' => random_index r' n = prev) l1
    /\ random_index r n <> prev.
Proof.
  induction draws as [|r draws IH]; intros Hex.
  - inversion Hex.
  - destruct (Nat.eq_dec (random_index r n) prev) as [Heq|Hne].
    + apply Exists_cons in Hex as [Hr|Hrest]; [congruence|].
      destruct (IH Hrest) as (l1 & r' & l2 & -> & Hall & Hr').
      exists (r :: l1), r', l2. repeat split; auto.
    + exists [], r, draws. repeat split; auto.
Qed.

Lemma reroll_result (draws : list Q) (n prev : nat) :
  forall next0 next : nat,
    reroll draws n prev next0 = Some next ->
    next <> prev
    /\ (next = next0 \/ exists r, In r draws /\ next = random_index r n).
Proof.
  induction draws as [|r draws IH]; intros next0 next Hre; simpl in Hre.
  - destruct (Nat.eqb_spec next0 prev); [discriminate|].
    inversion Hre; subst. auto.
  - destruct (Nat.eqb_spec next0 prev).
    + destruct (IH _ _ Hre) as (Hne & [->|(r' & Hin & ->)]).
      * split; [exact Hne|]. right. exists r. split; [left|]; reflexivity.
      * split; [exact Hne|]. right. exists r'. split; [right|]; auto.
    + inversion Hre; subst. auto.
Qed.

Lemma advance_many (n : nat) (draws : list Q) (prev : nat) :
  2 <= n -> advance n draws prev = reroll draws n prev prev.
Proof.
  intros Hn. unfold advance.
  destruct (Nat.leb_spec n 1); [lia | reflexivity].
Qed.



(** C3, as stated, fails.  One file is selected and decodes; playback has
    started and the list has one entry.  The effect sets no timer, the
    updater returns the current index without a single draw, and a timeout
    delivered all the same leaves the world as it is. *)
Lemma single_image_advance_returns :
  exists w : World,
    run [ ImageInputChange (Some ["a.png"]);
          ImageLoad {| src := "blob:0"; onload := Some 0 |} ]
        initial_world = Some w
    /\ length (images (react w)) = 1
    /\ isPlaying (react w) = true
    /\ advanceTimer (N := Q) (react w) = None
    /\ advance (length (images (react w))) [] (currentIndex (react w))
         = Some (currentIndex (react w))
    /\ step (AdvanceTimeout []) w = Some w.
Proof. eexists. vm_compute. repeat split; reflexivity. Qed.

Lemma reroll_single (draws : list Q) :
  Forall unit_draw draws -> reroll draws 1 0 0 = None.
Proof.
  intros Hdraws. apply reroll_same.
  eapply Forall_impl; [exact Hdraws|].
  intros r Hr. simpl. pose proof (random_index_lt r 1 Hr). lia.
Qed.

(** C3, amended.  With exactly one image the advance path returns: the
    effect's guard [images.length <= 1] sets no timer, in either arithmetic,
    and the updater's own guard returns the current index whatever the
    draws, so a timeout changes nothing.  Only the bare loop, which these
    guards keep out of reach, would run on for ever there: entered with one
    image it is still running after any number of draws. *)
Theorem single_image_guarded (w : World) (draws : list Q) :
  length (images (react w)) = 1 ->
  advanceTimer (N := Q) (react w) = None
  /\ advanceTimer (N := Binary64.b64) (react w) = None
  /\ advance (length (images (react w))) draws (currentIndex (react w))
       = Some (currentIndex (react w))
  /\ step (AdvanceTimeout draws) w = Some w
  /\ (Forall unit_draw draws -> reroll draws 1 0 0 = None).
Proof.
  intros Hone.
  assert (Hq : advanceTimer (N := Q) (react w) = None).
  { unfold advanceTimer. rewrite Hone. simpl.
    destruct (isPlaying (react w)); reflexivity. }
  split; [exact Hq|].
  split; [unfold advanceTimer; rewrite Hone; simpl;
          destruct (isPlaying (react w)); reflexivity|].
  split; [rewrite Hone; reflexivity|].
  split; [simpl; unfold advanceTimeout; rewrite Hq; reflexivity|].
  apply reroll_single.
Qed.

Lemma single_image_guarded_witness :
  step (AdvanceTimeout [ (1 # 3)%Q ])
       {| react := setImages
            (fun _ => [ {| url := "blob:0";
                           img := {| src := "blob:0"; onload := Some 0 |} |} ])
            (setIsPlaying true initial_state);
          objectURLs := ["a.png"];
          closures := [] |}
  = Some {| react := setImages
              (fun _ => [ {| url := "blob:0";
                             img := {| src := "blob:0"; onload := Some 0 |} |} ])
              (setIsPlaying true initial_state);
            objectURLs := ["a.png"];
            closures := [] |}.
Proof.
  apply (single_image_guarded
           {| react := setImages
                (fun _ => [ {| url := "blob:0";
                               img := {| src := "blob:0"; onload := Some 0 |} |} ])
                (setIsPlaying true initial_state);
              objectURLs := ["a.png"];
              closures := [] |}
           [ (1 # 3)%Q ]).
  reflexivity.
Defined.

(** ** The index stays valid *)

Lemma index_valid_grow (s s' : PlayerState) (more : list ImageEntry) :
  currentIndex s' = currentIndex s ->
  images s' = images s ++ more ->
  index_valid s -> index_valid s'.
Proof.
  unfold index_valid. intros -> ->. rewrite length_app. lia.
Qed.

Lemma advanceTimeout_index_valid (draws : list Q) (w w' : World) :
  Forall unit_draw draws ->
  index_valid (react w) ->
  advanceTimeout draws w = Some w' ->
  index_valid (react w').
Proof.
  intros Hdraws Hinv Hstep. unfold advanceTimeout, advanceTimer in Hstep.
  destruct (negb (isPlaying (react w)) || (length (images (react w)) <=? 1)%nat)
    eqn:Hguard.
  - inversion Hstep; subst. exact Hinv.
  - apply orb_false_iff in Hguard as (_ & Hlen).
    apply Nat.leb_gt in Hlen.
    destruct (advance _ _ _) as [next|] eqn:Hadv; [|discriminate].
    inversion Hstep; subst. simpl.
    rewrite advance_many in Hadv by lia.
    destruct (reroll_result _ _ _ _ _ Hadv) as (Hne & [->|(r & Hin & ->)]);
      [congruence|].
    left. simpl. apply random_index_lt; [|lia].
    rewrite Forall_forall in Hdraws. apply Hdraws, list_elem_of_In, Hin.
Qed.

Lemma step_index_valid (e : Event) (w w' : World) :
  event_ok e ->
  index_valid (react w) ->
  step e w = Some w' ->
  index_valid (react w').
Proof.
  intros Hok Hinv Hstep.
  destruct e as [files|i| | | | | |draws]; simpl in Hstep;
    try (inversion Hstep; subst; exact Hinv).
  - inversion Hstep; subst. rewrite handleImageUpload_react. exact Hinv.
  - destruct (onload i) as [k|]; inversion Hstep; subst; [|exact Hinv].
    destruct (img_onload_images k w) as (more & Him).
    eapply index_valid_grow; [apply img_onload_currentIndex | exact Him | exact Hinv].
  - inversion Hstep; subst. unfold playPauseClick.
    destruct (length (images (react w)) =? 0)%nat; exact Hinv.
  - eapply advanceTimeout_index_valid; eauto.
Qed.

Lemma run_index_valid (evs : list Event) :
  forall w w' : World,
    Forall event_ok evs ->
    index_valid (react w) ->
    run evs w = Some w' ->
    index_valid (react w').
Proof.
  induction evs as [|e evs IH]; intros w w' Hok Hinv Hrun; simpl in Hrun.
  - inversion Hrun; subst. exact Hinv.
  - apply Forall_cons in Hok as [He Hevs].
    destruct (step e w) as [w1|] eqn:Hstep; [|discriminate].
    eapply IH; [exact Hevs | | exact Hrun].
    eapply step_index_valid; eauto.
Qed.

Lemma index_valid_nonempty (s : PlayerState) :
  index_valid s -> images s <> [] -> currentIndex s < length (images s).
Proof.
  intros [Hlt|Hz] Hne; [exact Hlt|].
  rewrite Hz. destruct (images s); [congruence | simpl; lia].
Qed.



(** ** A file that does not decode *)


(** Loads alone, fewer than the batch still waits for, leave the React
    state as it is. *)
Lemma run_loads_below (loads : list HTMLImageElement) :
  forall (w w' : World) (k : nat) (c : UploadClosure),
    closures w !! k = Some c ->
    Forall (fun i => onload i = Some k) loads ->
    loadedCount c + length loads < files_length c ->
    run (map ImageLoad loads) w = Some w' ->
    react w' = react w.
Proof.
  induction loads as [|i loads IH]; intros w w' k c Hk Hall Hlt Hrun;
    simpl in Hrun.
  - inversion Hrun; subst. reflexivity.
  - apply Forall_cons in Hall as [Hi Hrest]. simpl in Hlt.
    rewrite Hi in Hrun.
    destruct (img_onload_spec k w c Hk) as (Hcl & _ & Hre).
    destruct (Nat.eqb_spec (loadedCount c + 1) (files_length c)) as [Heq|_];
      [lia|].
    rewrite <- Hre.
    eapply (IH _ _ k); [| exact Hrest | | exact Hrun].
    + rewrite Hcl. apply list_lookup_insert_eq. eapply lookup_lt_Some; eauto.
    + simpl. lia.
Qed.

(** Distinct loads of a batch that miss one of its images are fewer than
    its files. *)
Lemma loads_missing_one (fs : list File) (w : World)
    (failed : HTMLImageElement) (loads : list HTMLImageElement) :
  In failed (map img (batch_entries fs w)) ->
  ~ In failed loads ->
  NoDup loads ->
  Forall (fun i => In i (map img (batch_entries fs w))) loads ->
  length loads < length fs
  /\ Forall (fun i => onload i = Some (length (closures w))) loads.
Proof.
  intros Hfailed Hnot Hnd Hall. split.
  - assert (Hle : length (failed :: loads)
                  <= length (map img (batch_entries fs w))).
    { apply submseteq_length, NoDup_submseteq.
      - apply NoDup_cons_2; [rewrite list_elem_of_In; exact Hnot | exact Hnd].
      - intros x Hx. apply elem_of_cons in Hx as [->|Hx].
        + apply list_elem_of_In, Hfailed.
        + rewrite Forall_forall in Hall. apply list_elem_of_In, Hall, Hx. }
    rewrite length_map, batch_entries_length in Hle. simpl in Hle. lia.
  - eapply Forall_impl; [exact Hall|].
    intros i Hi. apply in_map_iff in Hi as (e & <- & He).
    pose proof (batch_entries_onload fs w) as Hon.
    rewrite Forall_forall in Hon. apply Hon, list_elem_of_In, He.
Qed.



(** ** Playback after ingestion *)

(** The load that completes a batch starts playback when the handler that
    took the batch saw it paused. *)
Lemma img_onload_autostart (k : nat) (w : World) (c : UploadClosure) :
  closures w !! k = Some c ->
  loadedCount c + 1 = files_length c ->
  isPlaying (react (img_onload k w))
    = isPlaying (react w) || negb (seen_isPlaying c).
Proof.
  intros Hk Hdone.
  destruct (img_onload_spec k w c Hk) as (_ & _ & ->).
  rewrite (proj2 (Nat.eqb_eq _ _) Hdone).
  destruct (seen_isPlaying c); simpl;
    destruct (isPlaying (react w)); reflexivity.
Qed.

(** C9: the code misses the claim.  A first file is selected and decodes, so
    playback starts.  A second file is selected while playing; the user
    pauses before it has decoded; then it decodes.  Its entry is appended,
    the batch has finished ingestion with playback paused, and playback
    stays paused: the callback tested the [isPlaying] of the render its
    handler belonged to, which was [true]. *)
Theorem pause_during_decode_stays_paused :
  exists w0 w : World,
    run [ ImageInputChange (Some ["a.png"]);
          ImageLoad {| src := "blob:0"; onload := Some 0 |};
          ImageInputChange (Some ["b.png"]);
          PlayPauseClick ]
        initial_world = Some w0
    /\ isPlaying (react w0) = false
    /\ length (images (react w0)) = 1
    /\ step (ImageLoad {| src := "blob:1"; onload := Some 1 |}) w0 = Some w
    /\ length (images (react w)) = 2
    /\ isPlaying (react w) = false.
Proof.
  eexists. eexists.
  split; [vm_compute; reflexivity|].
  split; [reflexivity|].
  split; [reflexivity|].
  split; [vm_compute; reflexivity|].
  split; reflexivity.
Qed.

(** ** An empty selection *)

(** C10.  Called with no file list, or with an empty one, the upload
    handler returns the world it was given: the seven state cells, the
    object URLs and the closure environments are all unchanged. *)
Theorem handleImageUpload_empty_selection (w : World) :
  handleImageUpload None w = w
  /\ handleImageUpload (Some []) w = w
  /\ step (ImageInputChange None) w = Some w
  /\ step (ImageInputChange (Some [])) w = Some w.
Proof. repeat split; reflexivity. Qed.

(** ** Object URLs and the entries of a batch *)

Lemma upload_fold_explicit (k : nat) (fs : list File) :
  forall (store : list File) (acc : list ImageEntry),
    fst (foldl (upload_file k) (store, acc) fs) = store ++ fs
    /\ (exists new, snd (foldl (upload_file k) (store, acc) fs) = acc ++ new)
    /\ (forall (i : nat) (f : File),
          fs !! i = Some f ->
          snd (foldl (upload_file k) (store, acc) fs) !! (length acc + i)
            = Some {| url := String.append "blob:" (pretty (length store + i));
                      img := {| src := String.append "blob:"
                                         (pretty (length store + i));
                                onload := Some k |} |}).
Proof.
  induction fs as [|f0 fs IH]; intros store acc.
  - simpl. rewrite app_nil_r. split; [reflexivity|].
    split; [exists []; rewrite app_nil_r; reflexivity|].
    intros i f Hi. discriminate Hi.
  - simpl. unfold upload_file at 2 4 6. simpl.
    destruct (IH (store ++ [f0])
               (acc ++ [ {| url := String.append "blob:" (pretty (length store));
                            img := {| src := String.append "blob:"
                                               (pretty (length store));
                                      onload := Some k |} |} ]))
      as (Hst & (new & Hnew) & Hlook).
    split; [rewrite Hst, <- app_assoc; reflexivity|].
    split; [rewrite Hnew, <- app_assoc; eexists; reflexivity|].
    intros [|i] f Hi.
    + rewrite Hnew, <- app_assoc, Nat.add_0_r, Nat.add_0_r.
      cbn [app].
      rewrite list_lookup_middle by reflexivity. reflexivity.
    + simpl in Hi. specialize (Hlook i f Hi).
      rewrite !length_app in Hlook. simpl in Hlook.
      replace (length acc + S i) with (length acc + 1 + i) by lia.
      replace (length store + S i) with (length store + 1 + i) by lia.
      exact Hlook.
Qed.

Lemma handleImageUpload_objectURLs (fs : list File) (w : World) :
  objectURLs (handleImageUpload (Some fs) w) = objectURLs w ++ fs.
Proof.
  destruct fs as [|f fs]; [simpl; rewrite app_nil_r; reflexivity|].
  unfold handleImageUpload.
  change (length (f :: fs) =? 0)%nat with false. cbv iota.
  pose proof (upload_fold_explicit (length (closures w)) (f :: fs)
                (objectURLs w) []) as (Hst & _).
  destruct (foldl (upload_file (length (closures w))) (objectURLs w, []) (f :: fs))
    as [store' entries]; simpl in *. exact Hst.
Qed.

Lemma batch_entries_lookup (fs : list File) (w : World) (i : nat) (f : File) :
  fs !! i = Some f ->
  batch_entries fs w !! i
    = Some {| url := String.append "blob:" (pretty (length (objectURLs w) + i));
              img := {| src := String.append "blob:"
                                 (pretty (length (objectURLs w) + i));
                        onload := Some (length (closures w)) |} |}.
Proof.
  intros Hi. unfold batch_entries.
  destruct (upload_fold_explicit (length (closures w)) fs (objectURLs w) [])
    as (_ & _ & Hlook).
  exact (Hlook i f Hi).
Qed.

Lemma blob_url_inj (i j : nat) :
  String.append "blob:" (pretty i) = String.append "blob:" (pretty j) -> i = j.
Proof.
  simpl. intros Heq. injection Heq as Heq.
  exact (pretty_nat_inj _ _ Heq).
Qed.

(** X1.  The entries a batch creates follow the selection: the [i]-th entry
    carries the URL numbered by the store's size plus [i], its image loads
    from that URL, and in the store after the upload that URL stands for the
    [i]-th file.  The object URLs after the upload are the ones before
    followed by the files, and the URLs of the batch are pairwise
    distinct. *)
Theorem batch_entries_follow_files (fs : list File) (w : World) :
  objectURLs (handleImageUpload (Some fs) w) = objectURLs w ++ fs
  /\ NoDup (map url (batch_entries fs w))
  /\ (forall (i : nat) (f : File),
        fs !! i = Some f ->
        exists e : ImageEntry,
          batch_entries fs w !! i = Some e
          /\ url e = String.append "blob:" (pretty (length (objectURLs w) + i))
          /\ src (img e) = url e
          /\ objectURLs (handleImageUpload (Some fs) w)
               !! (length (objectURLs w) + i) = Some f).
Proof.
  split; [apply handleImageUpload_objectURLs|].
  split.
  - apply NoDup_alt. intros i j u Hi Hj.
    rewrite list_lookup_fmap in Hi, Hj.
    destruct (batch_entries fs w !! i) as [ei|] eqn:Hei; [|discriminate].
    destruct (batch_entries fs w !! j) as [ej|] eqn:Hej; [|discriminate].
    simpl in Hi, Hj.
    assert (Hli : i < length fs).
    { rewrite <- (batch_entries_length fs w). eapply lookup_lt_Some; eauto. }
    assert (Hlj : j < length fs).
    { rewrite <- (batch_entries_length fs w). eapply lookup_lt_Some; eauto. }
    destruct (lookup_lt_is_Some_2 fs i Hli) as (fi & Hfi).
    destruct (lookup_lt_is_Some_2 fs j Hlj) as (fj & Hfj).
    rewrite (batch_entries_lookup fs w i fi Hfi) in Hei.
    rewrite (batch_entries_lookup fs w j fj Hfj) in Hej.
    inversion Hei; subst ei. inversion Hej; subst ej. simpl in Hi, Hj.
    assert (Heq : length (objectURLs w) + i = length (objectURLs w) + j).
    { apply blob_url_inj. congruence. }
    lia.
  - intros i f Hi. eexists.
    split; [apply (batch_entries_lookup fs w i f Hi)|].
    split; [reflexivity|]. split; [reflexivity|].
    rewrite handleImageUpload_objectURLs.
    rewrite lookup_app_r by lia.
    replace (length (objectURLs w) + i - length (objectURLs w)) with i by lia.
    exact Hi.
Qed.

Lemma batch_entries_follow_files_witness :
  exists e : ImageEntry,
    batch_entries ["a.png"; "b.png"] initial_world !! 1 = Some e
    /\ url e = "blob:1"
    /\ objectURLs (handleImageUpload (Some ["a.png"; "b.png"]) initial_world)
         !! 1 = Some "b.png".
Proof.
  destruct (batch_entries_follow_files ["a.png"; "b.png"] initial_world)
    as (_ & _ & Hlook).
  destruct (Hlook 1 "b.png") as (e & He & Hu & _ & Hs); [reflexivity|].
  exists e. split; [exact He|]. split; [exact Hu | exact Hs].
Defined.

(** ** What no event undoes *)

Lemma img_onload_objectURLs (k : nat) (w : World) :
  objectURLs (img_onload k w) = objectURLs w.
Proof.
  destruct (closures w !! k) as [c|] eqn:Hk.
  - apply (img_onload_spec k w c Hk).
  - rewrite img_onload_missing by exact Hk. reflexivity.
Qed.

Lemma img_onload_closures (k k' : nat) (w : World) (c : UploadClosure) :
  closures w !! k' = Some c ->
  exists c' : UploadClosure,
    closures (img_onload k w) !! k' = Some c'
    /\ files_length c' = files_length c
    /\ newEntries c' = newEntries c
    /\ seen_isPlaying c' = seen_isPlaying c
    /\ loadedCount c <= loadedCount c'.
Proof.
  intros Hk'.
  destruct (closures w !! k) as [c0|] eqn:Hk.
  - destruct (img_onload_spec k w c0 Hk) as (-> & _).
    destruct (Nat.eq_dec k k') as [->|Hne].
    + rewrite Hk' in Hk. inversion Hk; subst c0.
      rewrite list_lookup_insert_eq by (eapply lookup_lt_Some; eauto).
      eexists. split; [reflexivity|]. simpl. repeat split; lia.
    + rewrite list_lookup_insert_ne by exact Hne.
      exists c. repeat split; auto.
  - rewrite img_onload_missing by exact Hk. exists c. repeat split; auto.
Qed.

Lemma step_frame (e : Event) (w w' : World) :
  step e w = Some w' ->
  images (react w) `prefix_of` images (react w')
  /\ objectURLs w `prefix_of` objectURLs w'
  /\ (forall (k : nat) (c : UploadClosure),
        closures w !! k = Some c ->
        exists c' : UploadClosure,
          closures w' !! k = Some c'
          /\ files_length c' = files_length c
          /\ newEntries c' = newEntries c
          /\ seen_isPlaying c' = seen_isPlaying c
          /\ loadedCount c <= loadedCount c').
Proof.
  intros Hstep.
  assert (Hsame : forall w0 : World,
             objectURLs w0 = objectURLs w -> closures w0 = closures w ->
             images (react w0) = images (react w) ->
             images (react w) `prefix_of` images (react w0)
             /\ objectURLs w `prefix_of` objectURLs w0
             /\ (forall (k : nat) (c : UploadClosure),
                   closures w !! k = Some c ->
                   exists c' : UploadClosure,
                     closures w0 !! k = Some c'
                     /\ files_length c' = files_length c
                     /\ newEntries c' = newEntries c
                     /\ seen_isPlaying c' = seen_isPlaying c
                     /\ loadedCount c <= loadedCount c')).
  { intros w0 -> -> ->. split; [reflexivity|]. split; [reflexivity|].
    intros k c Hk. exists c. repeat split; auto. }
  destruct e as [files|i| | | | | |draws]; simpl in Hstep;
    try (inversion Hstep; subst; apply Hsame; reflexivity).
  - inversion Hstep; subst. rewrite handleImageUpload_react.
    split; [reflexivity|]. split.
    + destruct files as [fs|]; [|reflexivity].
      rewrite handleImageUpload_objectURLs. apply prefix_app_r. reflexivity.
    + intros k c Hk.
      destruct (handleImageUpload_closures files w) as (more & ->).
      exists c. rewrite lookup_app_l by (eapply lookup_lt_Some; eauto).
      repeat split; auto.
  - destruct (onload i) as [k0|]; inversion Hstep; subst;
      [|apply Hsame; reflexivity].
    split; [destruct (img_onload_images k0 w) as (more & ->);
            apply prefix_app_r; reflexivity|].
    split; [rewrite img_onload_objectURLs; reflexivity|].
    intros k c Hk. apply img_onload_closures, Hk.
  - inversion Hstep; subst. unfold playPauseClick.
    destruct (length (images (react w)) =? 0)%nat; apply Hsame; reflexivity.
  - unfold advanceTimeout in Hstep.
    destruct (advanceTimer (react w)).
    + destruct (advance _ _ _); inversion Hstep; subst. apply Hsame; reflexivity.
    + inversion Hstep; subst. apply Hsame; reflexivity.
Qed.

(** X2.  Along every run, whatever the events: the visible list only grows
    at its end (no entry is ever removed, replaced or moved); the object
    URLs created are never revoked or reassigned; and every closure
    environment stays in place with its batch, its counter never going
    down. *)
Theorem run_append_only (evs : list Event) (w w' : World) :
  run evs w = Some w' ->
  images (react w) `prefix_of` images (react w')
  /\ objectURLs w `prefix_of` objectURLs w'
  /\ (forall (k : nat) (c : UploadClosure),
        closures w !! k = Some c ->
        exists c' : UploadClosure,
          closures w' !! k = Some c'
          /\ files_length c' = files_length c
          /\ newEntries c' = newEntries c
          /\ seen_isPlaying c' = seen_isPlaying c
          /\ loadedCount c <= loadedCount c').
Proof.
  revert w. induction evs as [|e evs IH]; intros w Hrun; simpl in Hrun.
  - inversion Hrun; subst. split; [reflexivity|]. split; [reflexivity|].
    intros k c Hk. exists c. repeat split; auto.
  - destruct (step e w) as [w1|] eqn:Hstep; [|discriminate].
    destruct (step_frame e w w1 Hstep) as (Hi1 & Hu1 & Hc1).
    destruct (IH w1 Hrun) as (Hi2 & Hu2 & Hc2).
    split; [etransitivity; eauto|]. split; [etransitivity; eauto|].
    intros k c Hk.
    destruct (Hc1 k c Hk) as (c1 & Hk1 & Hf1 & Hn1 & Hs1 & Hl1).
    destruct (Hc2 k c1 Hk1) as (c2 & Hk2 & Hf2 & Hn2 & Hs2 & Hl2).
    exists c2. split; [exact Hk2|].
    repeat split; try congruence. lia.
Qed.

Lemma run_append_only_witness :
  images (react initial_world)
    `prefix_of`
  images (react (img_onload 0
                   (handleImageUpload (Some ["a.png"]) initial_world))).
Proof.
  apply (run_append_only
           [ ImageInputChange (Some ["a.png"]);
             ImageLoad {| src := "blob:0"; onload := Some 0 |} ]
           initial_world).
  reflexivity.
Defined.

(** ** What every reachable world satisfies *)

Lemma entry_registered_grow (store store' : list File) (e : ImageEntry) :
  length store <= length store' ->
  entry_registered store e -> entry_registered store' e.
Proof.
  intros Hle (k & Hk & Hu & Hs). exists k. repeat split; auto. lia.
Qed.

Lemma closure_ok_grow (store store' : list File) (c : UploadClosure) :
  length store <= length store' ->
  closure_ok store c -> closure_ok store' c.
Proof.
  intros Hle (H1 & Hlen & Hall). repeat split; auto.
  eapply Forall_impl; [exact Hall|].
  intros e. apply entry_registered_grow, Hle.
Qed.

Lemma batch_entries_registered (fs : list File) (w : World) :
  Forall (entry_registered (objectURLs w ++ fs)) (batch_entries fs w).
Proof.
  apply Forall_lookup. intros i e He.
  assert (Hi : i < length fs).
  { rewrite <- (batch_entries_length fs w). eapply lookup_lt_Some; eauto. }
  destruct (lookup_lt_is_Some_2 fs i Hi) as (f & Hf).
  rewrite (batch_entries_lookup fs w i f Hf) in He.
  inversion He; subst e.
  exists (length (objectURLs w) + i). rewrite length_app.
  repeat split; simpl; auto. lia.
Qed.

Lemma handleImageUpload_world_ok (files : option (list File)) (w : World) :
  world_ok w -> world_ok (handleImageUpload files w).
Proof.
  intros (Hplay & Himgs & Hcls).
  destruct files as [fs|]; [|repeat split; assumption].
  destruct fs as [|f fs]; [repeat split; assumption|].
  assert (Hne : f :: fs <> []) by discriminate.
  destruct (handleImageUpload_nonempty (f :: fs) w Hne) as (Hre & Hcl & _).
  pose proof (handleImageUpload_objectURLs (f :: fs) w) as Hst.
  assert (Hle : length (objectURLs w) <= length (objectURLs w ++ f :: fs))
    by (rewrite length_app; lia).
  unfold world_ok. rewrite Hre, Hcl, Hst.
  split; [exact Hplay|]. split.
  - eapply Forall_impl; [exact Himgs|].
    intros e. apply entry_registered_grow, Hle.
  - apply Forall_app. split.
    + eapply Forall_impl; [exact Hcls|].
      intros c. apply closure_ok_grow, Hle.
    + constructor; [|constructor].
      unfold closure_ok, batch_closure; simpl.
      split; [lia|]. split; [apply (batch_entries_length (f :: fs) w)|].
      apply batch_entries_registered.
Qed.

Lemma img_onload_world_ok (k : nat) (w : World) :
  world_ok w -> world_ok (img_onload k w).
Proof.
  intros (Hplay & Himgs & Hcls).
  destruct (closures w !! k) as [c|] eqn:Hk;
    [|rewrite img_onload_missing by exact Hk; repeat split; assumption].
  assert (Hc : closure_ok (objectURLs w) c).
  { rewrite Forall_lookup in Hcls. eapply Hcls, Hk. }
  destruct Hc as (H1 & Hlen & Hreg).
  destruct (img_onload_spec k w c Hk) as (Hcl & Hst & Hre).
  unfold world_ok. rewrite Hcl, Hst, Hre.
  assert (Hcls' : Forall (closure_ok (objectURLs w))
                    (<[k := {| files_length := files_length c;
                               newEntries := newEntries c;
                               loadedCount := loadedCount c + 1;
                               seen_isPlaying := seen_isPlaying c |}]>
                       (closures w))).
  { apply Forall_insert; [exact Hcls|]. repeat split; assumption. }
  assert (Hne : forall l : list ImageEntry, l ++ newEntries c <> []).
  { intros l Heq. apply (f_equal length) in Heq.
    rewrite length_app in Heq. simpl in Heq. lia. }
  destruct (loadedCount c + 1 =? files_length c)%nat.
  - destruct (seen_isPlaying c); simpl;
      (split; [intros _; apply Hne|]);
      (split; [apply Forall_app; split; assumption | exact Hcls']).
  - repeat split; assumption.
Qed.

Lemma step_world_ok (e : Event) (w w' : World) :
  world_ok w -> step e w = Some w' -> world_ok w'.
Proof.
  intros Hok Hstep.
  destruct e as [files|i| | | | | |draws]; simpl in Hstep;
    try (inversion Hstep; subst; exact Hok).
  - inversion Hstep; subst. apply handleImageUpload_world_ok, Hok.
  - destruct (onload i) as [k|]; inversion Hstep; subst;
      [apply img_onload_world_ok, Hok | exact Hok].
  - inversion Hstep; subst. unfold playPauseClick.
    destruct (Nat.eqb_spec (length (images (react w))) 0) as [|Hlen];
      [exact Hok|].
    destruct Hok as (Hplay & Himgs & Hcls).
    repeat split; simpl; try assumption.
    intros _ Heq. rewrite Heq in Hlen. simpl in Hlen. lia.
  - unfold advanceTimeout in Hstep.
    destruct (advanceTimer (react w)).
    + destruct (advance _ _ _); inversion Hstep; subst. exact Hok.
    + inversion Hstep; subst. exact Hok.
Qed.

Lemma run_world_ok (evs : list Event) :
  forall w w' : World, world_ok w -> run evs w = Some w' -> world_ok w'.
Proof.
  induction evs as [|e evs IH]; intros w w' Hok Hrun; simpl in Hrun.
  - inversion Hrun; subst. exact Hok.
  - destruct (step e w) as [w1|] eqn:Hstep; [|discriminate].
    eapply IH; [|exact Hrun]. eapply step_world_ok; eauto.
Qed.

Lemma initial_world_ok : world_ok initial_world.
Proof.
  split; [discriminate|]. split; constructor.
Qed.

(** X3.  In every world reached from the initial one, playback is on only
    when there are images: the button that could start it is disabled while
    the list is empty, and a completed batch, which starts it, has at least
    one entry.  So the button offers to pause only over a non-empty list. *)
Theorem playing_needs_images (evs : list Event) (w : World) :
  run evs initial_world = Some w ->
  isPlaying (react w) = true ->
  images (react w) <> [].
Proof.
  intros Hrun.
  apply (run_world_ok evs initial_world w initial_world_ok Hrun).
Qed.

Lemma playing_needs_images_witness :
  images (react (img_onload 0
                   (handleImageUpload (Some ["a.png"]) initial_world))) <> [].
Proof.
  apply (playing_needs_images
           [ ImageInputChange (Some ["a.png"]);
             ImageLoad {| src := "blob:0"; onload := Some 0 |} ]).
  - reflexivity.
  - reflexivity.
Defined.

(** X4.  In every world reached from the initial one, each visible entry
    carries an object URL that the store has handed out and still holds, and
    its image loads from that same URL. *)
Theorem visible_entries_registered (evs : list Event) (w : World)
    (e : ImageEntry) :
  run evs initial_world = Some w ->
  In e (images (react w)) ->
  exists (k : nat) (f : File),
    objectURLs w !! k = Some f
    /\ url e = String.append "blob:" (pretty k)
    /\ src (img e) = url e.
Proof.
  intros Hrun Hin.
  destruct (run_world_ok evs initial_world w initial_world_ok Hrun)
    as (_ & Himgs & _).
  rewrite Forall_forall in Himgs.
  destruct (Himgs e (proj2 (list_elem_of_In _ _) Hin)) as (k & Hk & Hu & Hs).
  destruct (lookup_lt_is_Some_2 _ _ Hk) as (f & Hf).
  exists k, f. auto.
Qed.

Lemma visible_entries_registered_witness :
  exists (k : nat) (f : File),
    objectURLs (img_onload 0 (handleImageUpload (Some ["a.png"]) initial_world))
      !! k = Some f
    /\ "blob:0" = String.append "blob:" (pretty k)
    /\ "blob:0" = "blob:0".
Proof.
  apply (visible_entries_registered
           [ ImageInputChange (Some ["a.png"]);
             ImageLoad {| src := "blob:0"; onload := Some 0 |} ]
           (img_onload 0 (handleImageUpload (Some ["a.png"]) initial_world))
           {| url := "blob:0";
              img := {| src := "blob:0"; onload := Some 0 |} |}).
  - reflexivity.
  - vm_compute. left. reflexivity.
Defined.

(** ** Two batches in flight *)

Lemma run_app (evs1 evs2 : list Event) (w : World) :
  run (evs1 ++ evs2) w =
    match run evs1 w with
    | Some w1 => run evs2 w1
    | None => None
    end.
Proof.
  revert w. induction evs1 as [|e evs1 IH]; intros w; simpl; [reflexivity|].
  destruct (step e w); [apply IH | reflexivity].
Qed.

Lemma step_other_closure (e : Event) (w w' : World) (k k' : nat)
    (c : UploadClosure) :
  closures w !! k' = Some c ->
  Forall (fun i => onload i = Some k) (loads_of [e]) ->
  k <> k' ->
  step e w = Some w' ->
  closures w' !! k' = Some c.
Proof.
  intros Hk' Hloads Hne Hstep.
  destruct (loads_of [e]) as [|i rest] eqn:Hl.
  - apply (step_tracks_other e w w' k' c Hk' Hl Hstep).
  - destruct e; try discriminate Hl.
    simpl in Hl. inversion Hl; subst. clear Hl.
    apply Forall_cons in Hloads as [Hi _].
    simpl in Hstep. rewrite Hi in Hstep. inversion Hstep; subst.
    destruct (closures w !! k) as [c0|] eqn:Hk.
    + destruct (img_onload_spec k w c0 Hk) as (-> & _).
      rewrite list_lookup_insert_ne by exact Hne. exact Hk'.
    + rewrite img_onload_missing by exact Hk. exact Hk'.
Qed.

Lemma run_other_closure (evs : list Event) :
  forall (w w' : World) (k k' : nat) (c : UploadClosure),
    closures w !! k' = Some c ->
    Forall (fun i => onload i = Some k) (loads_of evs) ->
    k <> k' ->
    run evs w = Some w' ->
    closures w' !! k' = Some c.
Proof.
  induction evs as [|e evs IH]; intros w w' k k' c Hk' Hloads Hne Hrun;
    simpl in Hrun.
  - inversion Hrun; subst. exact Hk'.
  - destruct (step e w) as [w1|] eqn:Hstep; [|discriminate].
    rewrite loads_of_cons in Hloads.
    apply Forall_app in Hloads as (Hl1 & Hl2).
    eapply IH; [|exact Hl2|exact Hne|exact Hrun].
    eapply step_other_closure; eauto.
Qed.

Lemma batch_loads_onload (fs : list File) (w : World)
    (loads : list HTMLImageElement) :
  loads ≡ₚ map img (batch_entries fs w) ->
  length loads = length fs
  /\ Forall (fun i => onload i = Some (length (closures w))) loads.
Proof.
  intros Hperm. split.
  - rewrite Hperm, length_map. apply batch_entries_length.
  - rewrite Hperm. apply Forall_map. apply batch_entries_onload.
Qed.

(** X5.  Two batches are selected one after the other, before any file has
    decoded, and then every file decodes.  When all files of the second
    batch decode before those of the first, the second batch comes first in
    the visible list; when the first batch decodes first, the selection
    order is kept.  The visible order of batches is the order in which they
    complete, in whatever order the files inside each batch decode. *)
Theorem batches_show_in_completion_order (w : World) (fs1 fs2 : list File)
    (loads1 loads2 : list HTMLImageElement) :
  fs1 <> [] ->
  fs2 <> [] ->
  loads1 ≡ₚ map img (batch_entries fs1 w) ->
  loads2 ≡ₚ map img (batch_entries fs2 (handleImageUpload (Some fs1) w)) ->
  (exists w' : World,
     run (map ImageLoad (loads2 ++ loads1))
         (handleImageUpload (Some fs2) (handleImageUpload (Some fs1) w))
       = Some w'
     /\ images (react w') =
          images (react w)
          ++ batch_entries fs2 (handleImageUpload (Some fs1) w)
          ++ batch_entries fs1 w)
  /\ (exists w' : World,
        run (map ImageLoad (loads1 ++ loads2))
            (handleImageUpload (Some fs2) (handleImageUpload (Some fs1) w))
          = Some w'
        /\ images (react w') =
             images (react w)
             ++ batch_entries fs1 w
             ++ batch_entries fs2 (handleImageUpload (Some fs1) w)).
Proof.
  intros Hne1 Hne2 Hp1 Hp2.
  set (w1 := handleImageUpload (Some fs1) w) in *.
  set (w2 := handleImageUpload (Some fs2) w1).
  destruct (batch_loads_onload fs1 w loads1 Hp1) as (Hlen1 & Hon1).
  destruct (batch_loads_onload fs2 w1 loads2 Hp2) as (Hlen2 & Hon2).
  destruct (handleImageUpload_nonempty fs1 w Hne1) as (Hre1 & Hcl1 & _).
  fold w1 in Hre1, Hcl1.
  assert (Hk2 : closures w2 !! length (closures w1) = Some (batch_closure fs2 w1))
    by (apply batch_closure_lookup, Hne2).
  assert (Hk1 : closures w2 !! length (closures w) = Some (batch_closure fs1 w)).
  { unfold w2.
    destruct (handleImageUpload_nonempty fs2 w1 Hne2) as (_ & -> & _).
    rewrite lookup_app_l by (rewrite Hcl1, length_app; simpl; lia).
    rewrite Hcl1. apply list_lookup_middle. reflexivity. }
  assert (Hkne : length (closures w1) <> length (closures w))
    by (rewrite Hcl1, length_app; simpl; lia).
  assert (Hre2 : images (react w2) = images (react w))
    by (unfold w2; rewrite handleImageUpload_react, Hre1; reflexivity).
  assert (Hfull : forall (fs : list File) (w0 : World) (n : nat),
             fs <> [] -> n = length fs ->
             (if completes n (batch_closure fs w0)
              then newEntries (batch_closure fs w0) else [])
             = batch_entries fs w0).
  { intros fs w0 n Hne ->. rewrite completes_batch by exact Hne.
    rewrite Nat.ltb_irrefl. reflexivity. }
  split.
  - rewrite map_app, run_app.
    destruct (run_loads_total loads2 w2) as (wa & Hra). rewrite Hra.
    destruct (run_loads_total loads1 wa) as (wb & Hrb). rewrite Hrb.
    exists wb. split; [reflexivity|].
    assert (Hla : Forall (fun i => onload i = Some (length (closures w1)))
                    (loads_of (map ImageLoad loads2)))
      by (rewrite loads_of_loads; exact Hon2).
    assert (Hlb : Forall (fun i => onload i = Some (length (closures w)))
                    (loads_of (map ImageLoad loads1)))
      by (rewrite loads_of_loads; exact Hon1).
    destruct (run_tracks _ _ _ _ _ Hk2 Hla Hra) as (_ & Hia).
    pose proof (run_other_closure _ _ _ _ _ _ Hk1 Hla Hkne Hra) as Hk1a.
    destruct (run_tracks _ _ _ _ _ Hk1a Hlb Hrb) as (_ & Hib).
    rewrite loads_of_loads in Hia, Hib.
    rewrite Hfull in Hia by auto. rewrite Hfull in Hib by auto.
    rewrite Hib, Hia, Hre2, <- app_assoc. reflexivity.
  - rewrite map_app, run_app.
    destruct (run_loads_total loads1 w2) as (wa & Hra). rewrite Hra.
    destruct (run_loads_total loads2 wa) as (wb & Hrb). rewrite Hrb.
    exists wb. split; [reflexivity|].
    assert (Hla : Forall (fun i => onload i = Some (length (closures w)))
                    (loads_of (map ImageLoad loads1)))
      by (rewrite loads_of_loads; exact Hon1).
    assert (Hlb : Forall (fun i => onload i = Some (length (closures w1)))
                    (loads_of (map ImageLoad loads2)))
      by (rewrite loads_of_loads; exact Hon2).
    destruct (run_tracks _ _ _ _ _ Hk1 Hla Hra) as (_ & Hia).
    assert (Hkne' : length (closures w) <> length (closures w1)) by lia.
    pose proof (run_other_closure _ _ _ _ _ _ Hk2 Hla Hkne' Hra) as Hk2a.
    destruct (run_tracks _ _ _ _ _ Hk2a Hlb Hrb) as (_ & Hib).
    rewrite loads_of_loads in Hia, Hib.
    rewrite Hfull in Hia by auto. rewrite Hfull in Hib by auto.
    rewrite Hib, Hia, Hre2, <- app_assoc. reflexivity.
Qed.

Lemma batches_show_in_completion_order_witness :
  exists w' : World,
    run (map ImageLoad
           ([ {| src := "blob:1"; onload := Some 1 |} ]
            ++ [ {| src := "blob:0"; onload := Some 0 |} ]))
        (handleImageUpload (Some ["b.png"])
           (handleImageUpload (Some ["a.png"]) initial_world))
      = Some w'
    /\ images (react w') =
         images (react initial_world)
         ++ batch_entries ["b.png"]
              (handleImageUpload (Some ["a.png"]) initial_world)
         ++ batch_entries ["a.png"] initial_world.
Proof.
  destruct (batches_show_in_completion_order initial_world
              ["a.png"] ["b.png"]
              [ {| src := "blob:0"; onload := Some 0 |} ]
              [ {| src := "blob:1"; onload := Some 1 |} ]) as (Hfirst & _).
  - discriminate.
  - discriminate.
  - vm_compute. reflexivity.
  - vm_compute. reflexivity.
  - exact Hfirst.
Defined.

(** ** The animation effect and the thumbnail in reachable worlds *)

Lemma reachable_index_lookup (evs : list Event) (w : World) :
  Forall event_ok evs ->
  run evs initial_world = Some w ->
  images (react w) <> [] ->
  exists entry : ImageEntry,
    images (react w) !! currentIndex (react w) = Some entry.
Proof.
  intros Hok Hrun Hne.
  apply lookup_lt_is_Some_2, index_valid_nonempty; [|exact Hne].
  eapply run_index_valid; [exact Hok | | exact Hrun].
  right. reflexivity.
Qed.



(** ** The geometry of a transition, in exact arithmetic *)

Section Geometry.
Local Open Scope Q_scope.

Lemma jitter_range (r1 : Q) :
  unit_draw r1 ->
  85 # 100 <= MIN_SCALE_FACTOR + r1 * (MAX_SCALE_FACTOR - MIN_SCALE_FACTOR)
  /\ MIN_SCALE_FACTOR + r1 * (MAX_SCALE_FACTOR - MIN_SCALE_FACTOR) < 115 # 100.
Proof.
  intros [H0 H1].
  cbv [MIN_SCALE_FACTOR MAX_SCALE_FACTOR num_of_dec Q_JSNumber].
  split; lra.
Qed.

Lemma scaled_fit (cw ch iw ih j : Q) :
  0 < cw -> 0 < ch -> 0 < iw -> 0 < ih -> 0 <= j ->
  iw * (num_min (cw / iw) (ch / ih) * j) <= cw * j
  /\ ih * (num_min (cw / iw) (ch / ih) * j) <= ch * j
  /\ (iw * (num_min (cw / iw) (ch / ih) * j) == cw * j
      \/ ih * (num_min (cw / iw) (ch / ih) * j) == ch * j)
  /\ iw * (num_min (cw / iw) (ch / ih) * j) * ih
     == ih * (num_min (cw / iw) (ch / ih) * j) * iw.
Proof.
  intros Hcw Hch Hiw Hih Hj.
  set (m := num_min (cw / iw) (ch / ih)).
  assert (Ha : iw * (cw / iw) == cw) by (field; lra).
  assert (Hb : ih * (ch / ih) == ch) by (field; lra).
  assert (Hm : (m == cw / iw /\ cw / iw <= ch / ih)
               \/ (m == ch / ih /\ ch / ih <= cw / iw)).
  { unfold m. simpl. destruct (Qle_bool (cw / iw) (ch / ih)) eqn:Hle.
    - left. split; [reflexivity|]. apply Qle_bool_iff, Hle.
    - right. split; [reflexivity|].
      destruct (Qlt_le_dec (ch / ih) (cw / iw)) as [Hlt|Hge]; [lra|].
      apply Qle_bool_iff in Hge. congruence. }
  clearbody m.
  generalize dependent (cw / iw). generalize dependent (ch / ih).
  intros b Hb a Ha Hm.
  assert (Hscale : forall x y z : Q, 0 < x -> y <= z -> x * (y * j) <= x * z * j).
  { intros x y z Hx Hyz.
    rewrite Qmult_assoc.
    apply Qmult_le_compat_r; [|exact Hj].
    apply Qmult_le_l; assumption. }
  destruct Hm as [[Hm Hle]|[Hm Hle]]; rewrite Hm.
  - split; [rewrite <- Ha; apply Hscale; [exact Hiw | apply Qle_refl]|].
    split; [rewrite <- Hb; apply Hscale; assumption|].
    split; [left; rewrite <- Ha; ring | ring].
  - split; [rewrite <- Ha; apply Hscale; assumption|].
    split; [rewrite <- Hb; apply Hscale; [exact Hih | apply Qle_refl]|].
    split; [right; rewrite <- Hb; ring | ring].
Qed.

Lemma animationEffect_started (cv : Canvas Q)
    (size_of : HTMLImageElement -> Q * Q) (s : PlayerState)
    (entry : ImageEntry) (now r1 r2 : Q) :
  images s !! currentIndex s = Some entry ->
  animationEffect (Some cv) true size_of s now r1 r2 =
    Started
      {| canvas_width := cv_width cv;
         canvas_height := cv_height cv;
         env_img := img entry;
         start := now;
         duration := mapSpeedToDuration (inject_Z (speed s));
         centerX := cv_width cv / 2;
         centerY := cv_height cv / 2;
         angleRad := (r2 * 2 - 1) * 5 * Math_PI / 180;
         drawWidth :=
           fst (size_of (img entry))
           * (num_min (cv_width cv / fst (size_of (img entry)))
                      (cv_height cv / snd (size_of (img entry)))
              * (MIN_SCALE_FACTOR
                 + r1 * (MAX_SCALE_FACTOR - MIN_SCALE_FACTOR)));
         drawHeight :=
           snd (size_of (img entry))
           * (num_min (cv_width cv / fst (size_of (img entry)))
                      (cv_height cv / snd (size_of (img entry)))
              * (MIN_SCALE_FACTOR
                 + r1 * (MAX_SCALE_FACTOR - MIN_SCALE_FACTOR)));
         env_shade := inject_Z (shade s) |}.
Proof.
  intros Hentry. unfold animationEffect. rewrite Hentry.
  destruct (images s) as [|e0 rest] eqn:Himgs.
  - rewrite lookup_nil in Hentry. discriminate.
  - reflexivity.
Qed.





End Geometry.

(** ** The fade, in exact arithmetic *)

Section Fade.
Local Open Scope Q_scope.

Lemma image_alphas_frame (c : RenderEnv Q) (time : Q) :
  image_alphas (frame c time)
    = [ num_min 1 ((time - start c) / duration c) ].
Proof.
  rewrite frame_paints. unfold image_alphas. simpl.
  destruct (negb (Qle_bool (env_shade c) (inject_Z 0))); reflexivity.
Qed.

Lemma render_again (c : RenderEnv Q) (time : Q) :
  snd (render c time) = negb (Qle_bool 1 ((time - start c) / duration c)).
Proof.
  unfold render. simpl. change (inject_Z 1) with 1.
  destruct (Qle_bool 1 ((time - start c) / duration c)) eqn:Hle;
    [reflexivity|].
  rewrite Hle. reflexivity.
Qed.

Lemma progress_lt_1 (c : RenderEnv Q) (time : Q) :
  0 < duration c ->
  (time - start c) / duration c < 1 <-> time < start c + duration c.
Proof.
  intros Hd. split; intros Hlt.
  - apply (Qmult_lt_compat_r _ _ (duration c) Hd) in Hlt.
    assert (Heq : (time - start c) / duration c * duration c == time - start c)
      by (field; lra).
    rewrite Heq, Qmult_1_l in Hlt. lra.
  - apply Qlt_shift_div_r; [exact Hd|]. lra.
Qed.

Lemma render_again_iff (c : RenderEnv Q) (time : Q) :
  0 < duration c ->
  snd (render c time) = true <-> time < start c + duration c.
Proof.
  intros Hd. rewrite render_again, <- (progress_lt_1 c time Hd).
  destruct (Qle_bool 1 ((time - start c) / duration c)) eqn:Hle; simpl.
  - apply Qle_bool_iff in Hle. split; [discriminate | lra].
  - split; [intros _ | reflexivity].
    destruct (Qlt_le_dec ((time - start c) / duration c) 1) as [Hlt|Hge];
      [exact Hlt|].
    apply Qle_bool_iff in Hge. congruence.
Qed.

Lemma frameLoop_cons (c : RenderEnv Q) (t : Q) (times : list Q) :
  frameLoop c (t :: times) =
    if snd (render c t) then
      (frame c t :: fst (frameLoop c times), snd (frameLoop c times))
    else ([frame c t], false).
Proof.
  cbn [frameLoop]. destruct (frameLoop c times). reflexivity.
Qed.

Lemma frameLoop_running (c : RenderEnv Q) (times : list Q) :
  0 < duration c ->
  Forall (fun t => t < start c + duration c) times ->
  frameLoop c times = (map (frame c) times, true).
Proof.
  intros Hd. induction times as [|t times IH]; intros Hall; [reflexivity|].
  apply Forall_cons in Hall as [Ht Hrest].
  rewrite frameLoop_cons, (proj2 (render_again_iff c t Hd) Ht), (IH Hrest).
  reflexivity.
Qed.

Lemma frameLoop_ends (c : RenderEnv Q) (before after : list Q) (t_end : Q) :
  0 < duration c ->
  Forall (fun t => t < start c + duration c) before ->
  start c + duration c <= t_end ->
  frameLoop c (before ++ t_end :: after)
    = (map (frame c) (before ++ [t_end]), false).
Proof.
  intros Hd Hall Hend. induction before as [|t before IH].
  - cbn [app]. rewrite frameLoop_cons.
    destruct (snd (render c t_end)) eqn:Hr; [|reflexivity].
    apply (render_again_iff c t_end Hd) in Hr. lra.
  - apply Forall_cons in Hall as [Ht Hrest].
    change ((t :: before) ++ t_end :: after)
      with (t :: (before ++ t_end :: after)).
    rewrite frameLoop_cons, (proj2 (render_again_iff c t Hd) Ht), (IH Hrest).
    reflexivity.
Qed.



End Fade.

(** ** Sliders, and the timings they give *)

Lemma img_onload_sliders (k : nat) (w : World) :
  speed (react (img_onload k w)) = speed (react w)
  /\ delay (react (img_onload k w)) = delay (react w)
  /\ shade (react (img_onload k w)) = shade (react w)
  /\ volume (react (img_onload k w)) = volume (react w).
Proof.
  destruct (closures w !! k) as [c|] eqn:Hk.
  - destruct (img_onload_spec k w c Hk) as (_ & _ & ->).
    destruct (loadedCount c + 1 =? files_length c)%nat;
      [destruct (seen_isPlaying c)|]; repeat split; reflexivity.
  - rewrite img_onload_missing by exact Hk. repeat split; reflexivity.
Qed.

Lemma step_sliders_ok (e : Event) (w w' : World) :
  event_ok e ->
  sliders_ok (react w) ->
  step e w = Some w' ->
  sliders_ok (react w').
Proof.
  intros He (Hsp & Hde & Hsh & Hvo) Hstep. unfold sliders_ok.
  destruct e as [files|i| | | | | |draws]; simpl in Hstep, He.
  - inversion Hstep; subst. rewrite handleImageUpload_react. auto.
  - destruct (onload i) as [k|]; inversion Hstep; subst; [|auto].
    destruct (img_onload_sliders k w) as (-> & -> & -> & ->). auto.
  - inversion Hstep; subst. unfold playPauseClick.
    destruct (length (images (react w)) =? 0)%nat; simpl; auto.
  - inversion Hstep; subst; simpl; auto.
  - inversion Hstep; subst; simpl; auto.
  - inversion Hstep; subst; simpl; auto.
  - inversion Hstep; subst; simpl; auto.
  - unfold advanceTimeout in Hstep.
    destruct (advanceTimer (react w)).
    + destruct (advance _ _ _); inversion Hstep; subst; simpl; auto.
    + inversion Hstep; subst; auto.
Qed.

Lemma run_sliders_ok (evs : list Event) :
  forall w w' : World,
    Forall event_ok evs ->
    sliders_ok (react w) ->
    run evs w = Some w' ->
    sliders_ok (react w').
Proof.
  induction evs as [|e evs IH]; intros w w' Hok Hs Hrun; simpl in Hrun.
  - inversion Hrun; subst. exact Hs.
  - apply Forall_cons in Hok as [He Hevs].
    destruct (step e w) as [w1|] eqn:Hstep; [|discriminate].
    eapply IH; [exact Hevs | | exact Hrun].
    eapply step_sliders_ok; eauto.
Qed.

Lemma initial_sliders_ok : sliders_ok (react initial_world).
Proof. unfold sliders_ok. simpl. lia. Qed.

Lemma mapSpeedToDuration_b64_range (s : Z) :
  (0 <= s <= 100)%Z ->
  SFleb (Binary64.of_Z 600) (mapSpeedToDuration (Binary64.of_Z s)) = true
  /\ SFleb (mapSpeedToDuration (Binary64.of_Z s)) (Binary64.of_Z 4000) = true.
Proof.
  intros Hs. apply andb_prop.
  apply (forall_slider (fun s =>
    SFleb (Binary64.of_Z 600) (mapSpeedToDuration (Binary64.of_Z s))
    && SFleb (mapSpeedToDuration (Binary64.of_Z s)) (Binary64.of_Z 4000)));
    [vm_compute; reflexivity | exact Hs].
Qed.

Lemma mapDelayToMs_b64_range (d : Z) :
  (0 <= d <= 100)%Z ->
  SFleb (Binary64.of_Z 500) (mapDelayToMs (Binary64.of_Z d)) = true
  /\ SFleb (mapDelayToMs (Binary64.of_Z d)) (Binary64.of_Z 6000) = true.
Proof.
  intros Hd. apply andb_prop.
  apply (forall_slider (fun d =>
    SFleb (Binary64.of_Z 500) (mapDelayToMs (Binary64.of_Z d))
    && SFleb (mapDelayToMs (Binary64.of_Z d)) (Binary64.of_Z 6000)));
    [vm_compute; reflexivity | exact Hd].
Qed.

Lemma slider_Q_range (s : Z) :
  (0 <= s <= 100)%Z -> (0 <= inject_Z s)%Q /\ (inject_Z s <= 100)%Q.
Proof.
  intros [H0 H100]. split.
  - change 0%Q with (inject_Z 0). rewrite <- Zle_Qle. exact H0.
  - change 100%Q with (inject_Z 100). rewrite <- Zle_Qle. exact H100.
Qed.

(** X10.  In every world reached from the initial one by events a browser
    can deliver, the four sliders are at positions of [0,100]; so the
    duration of a transition is between 600 and 4000 ms, and the delay of
    the advance timer, when one is set, between 500 and 6000 ms, in exact
    arithmetic and in binary64 alike. *)
Theorem timings_bounded (evs : list Event) (w : World) :
  Forall event_ok evs ->
  run evs initial_world = Some w ->
  sliders_ok (react w)
  /\ (600 <= mapSpeedToDuration (inject_Z (speed (react w))))%Q
  /\ (mapSpeedToDuration (inject_Z (speed (react w))) <= 4000)%Q
  /\ SFleb (Binary64.of_Z 600)
           (mapSpeedToDuration (Binary64.of_Z (speed (react w)))) = true
  /\ SFleb (mapSpeedToDuration (Binary64.of_Z (speed (react w))))
           (Binary64.of_Z 4000) = true
  /\ (forall d : Q,
        advanceTimer (react w) = Some d -> (500 <= d)%Q /\ (d <= 6000)%Q)
  /\ (forall d : Binary64.b64,
        advanceTimer (react w) = Some d ->
        SFleb (Binary64.of_Z 500) d = true
        /\ SFleb d (Binary64.of_Z 6000) = true).
Proof.
  intros Hok Hrun.
  assert (Hs : sliders_ok (react w)).
  { eapply run_sliders_ok; [exact Hok | apply initial_sliders_ok | exact Hrun]. }
  split; [exact Hs|].
  destruct Hs as (Hsp & Hde & _ & _).
  destruct (slider_Q_range _ Hsp) as (Hsp0 & Hsp1).
  destruct (slider_Q_range _ Hde) as (Hde0 & Hde1).
  split; [rewrite mapSpeedToDuration_affine; lra|].
  split; [rewrite mapSpeedToDuration_affine; lra|].
  split; [apply mapSpeedToDuration_b64_range, Hsp|].
  split; [apply mapSpeedToDuration_b64_range, Hsp|].
  split.
  - intros d Hd. unfold advanceTimer in Hd.
    destruct (negb (isPlaying (react w)) || (length (images (react w)) <=? 1)%nat);
      [discriminate|].
    assert (Heq : d = mapDelayToMs (inject_Z (delay (react w))))
      by (injection Hd as <-; reflexivity).
    rewrite Heq, mapDelayToMs_affine. split; lra.
  - intros d Hd. unfold advanceTimer in Hd.
    destruct (negb (isPlaying (react w)) || (length (images (react w)) <=? 1)%nat);
      [discriminate|].
    assert (Heq : d = mapDelayToMs (Binary64.of_Z (delay (react w))))
      by (injection Hd as <-; reflexivity).
    rewrite Heq. apply mapDelayToMs_b64_range, Hde.
Qed.

Lemma timings_bounded_witness :
  (600 <= mapSpeedToDuration (inject_Z 75))%Q
  /\ (mapSpeedToDuration (inject_Z 75) <= 4000)%Q.
Proof.
  destruct (timings_bounded [ SpeedChange 75 ]
              (with_react (setSpeed 75) initial_world))
    as (_ & Hlo & Hhi & _).
  - repeat constructor; simpl; lia.
  - reflexivity.
  - split; [exact Hlo | exact Hhi].
Defined.

(** ** When the picture changes *)



(** ** Audio *)

Section AudioProperties.
Context {N : Type} `{JSNumber N}.

(** X12.  The audio upload handler: with no file it changes nothing; with
    a file it registers exactly one object URL, for that file, whether or
    not an audio element is mounted, and leaves the React state and the
    closure environments alone; a mounted element gets that URL as its
    source, loops, keeps its volume, and plays when the browser allows
    it. *)
Theorem audio_upload_registers_one_url (allowed : bool) (p : Page N) :
  handleAudioUpload None allowed p = p
  /\ (forall f : File,
        react (page_world (handleAudioUpload (Some f) allowed p))
          = react (page_world p)
        /\ closures (page_world (handleAudioUpload (Some f) allowed p))
             = closures (page_world p)
        /\ objectURLs (page_world (handleAudioUpload (Some f) allowed p))
             = objectURLs (page_world p) ++ [f]
        /\ (audioRef p = None ->
            audioRef (handleAudioUpload (Some f) allowed p) = None)
        /\ (forall a : HTMLAudioElement N,
              audioRef p = Some a ->
              exists a' : HTMLAudioElement N,
                audioRef (handleAudioUpload (Some f) allowed p) = Some a'
                /\ audio_src a'
                     = String.append "blob:"
                         (pretty (length (objectURLs (page_world p))))
                /\ objectURLs (page_world (handleAudioUpload (Some f) allowed p))
                     !! length (objectURLs (page_world p)) = Some f
                /\ audio_loop a' = true
                /\ audio_volume a' = audio_volume a
                /\ (allowed = true -> audio_paused a' = false))).
Proof.
  split; [reflexivity|].
  intros f. unfold handleAudioUpload, createObjectURL.
  destruct (audioRef p) as [a|] eqn:Ha; simpl.
  - repeat split; try discriminate.
    intros a0 Ha0. inversion Ha0; subst a0.
    eexists. split; [reflexivity|].
    destruct allowed; simpl;
      (split; [reflexivity|];
       split; [apply list_lookup_middle; reflexivity|];
       repeat split; auto; discriminate).
  - repeat split; discriminate.
Qed.

(** X13.  The audio toggle never touches the slideshow, the source, the
    loop flag or the volume, and does nothing without an element.  A
    playing element is paused; a paused one plays when the browser allows
    it and stays paused, silently, when it does not.  When playing is
    allowed, toggling twice brings the page back to where it was. *)
Theorem audio_toggle_flips (allowed : bool) (p : Page N) :
  page_world (handleToggleAudio allowed p) = page_world p
  /\ (audioRef p = None -> handleToggleAudio allowed p = p)
  /\ (forall a : HTMLAudioElement N,
        audioRef p = Some a ->
        exists a' : HTMLAudioElement N,
          audioRef (handleToggleAudio allowed p) = Some a'
          /\ audio_src a' = audio_src a
          /\ audio_loop a' = audio_loop a
          /\ audio_volume a' = audio_volume a
          /\ audio_paused a'
               = if audio_paused a then negb allowed else true)
  /\ handleToggleAudio true (handleToggleAudio true p) = p.
Proof.
  unfold handleToggleAudio.
  destruct p as [w [a|]]; simpl.
  - destruct a as [s l [|] v]; simpl.
    + split; [reflexivity|]. split; [discriminate|]. split; [|reflexivity].
      intros a Ha. inversion Ha; subst a.
      destruct allowed; simpl; eexists; repeat split; reflexivity.
    + split; [reflexivity|]. split; [discriminate|]. split; [|reflexivity].
      intros a Ha. inversion Ha; subst a.
      eexists; repeat split; reflexivity.
  - split; [reflexivity|]. split; [reflexivity|]. split; [discriminate|reflexivity].
Qed.

End AudioProperties.

Lemma audio_upload_registers_one_url_witness :
  exists a' : HTMLAudioElement Q,
    audioRef (handleAudioUpload (Some "song.mp3") true
                {| page_world := initial_world;
                   audioRef := Some {| audio_src := ""; audio_loop := false;
                                       audio_paused := true;
                                       audio_volume := 1%Q |} |})
      = Some a'
    /\ audio_src a' = "blob:0"
    /\ audio_loop a' = true
    /\ audio_paused a' = false.
Proof.
  destruct (audio_upload_registers_one_url true
              {| page_world := initial_world;
                 audioRef := Some {| audio_src := ""; audio_loop := false;
                                     audio_paused := true;
                                     audio_volume := 1%Q |} |})
    as (_ & Hfile).
  destruct (Hfile "song.mp3") as (_ & _ & _ & _ & Helem).
  destruct (Helem {| audio_src := ""; audio_loop := false;
                     audio_paused := true; audio_volume := 1%Q |})
    as (a' & Ha' & Hsrc & _ & Hloop & _ & Hplay); [reflexivity|].
  exists a'. split; [exact Ha'|]. split; [exact Hsrc|].
  split; [exact Hloop | apply Hplay; reflexivity].
Defined.

Lemma audio_toggle_flips_witness :
  exists a' : HTMLAudioElement Q,
    audioRef (handleToggleAudio false
                {| page_world := initial_world;
                   audioRef := Some {| audio_src := "blob:0"; audio_loop := true;
                                       audio_paused := true;
                                       audio_volume := (1 # 2)%Q |} |})
      = Some a'
    /\ audio_paused a' = true.
Proof.
  destruct (audio_toggle_flips false
              {| page_world := initial_world;
                 audioRef := Some {| audio_src := "blob:0"; audio_loop := true;
                                     audio_paused := true;
                                     audio_volume := (1 # 2)%Q |} |})
    as (_ & _ & Helem & _).
  destruct (Helem {| audio_src := "blob:0"; audio_loop := true;
                     audio_paused := true; audio_volume := (1 # 2)%Q |})
    as (a' & Ha' & _ & _ & _ & Hp); [reflexivity|].
  exists a'. split; [exact Ha' | exact Hp].
Defined.

(** X14.  The volume effect gives a mounted audio element the volume
    [volume / 100] and changes nothing else; without an element it does
    nothing.  At every slider position that volume lies in [0,1], the range
    an audio element accepts, in exact arithmetic and in binary64; in
    binary64 it is exactly 0 at 0, 0.5 at 50 and 1 at 100. *)
Theorem volume_effect_in_unit_range (s : Z) :
  (0 <= s)%Z -> (s <= 100)%Z ->
  (forall (p : Page Q) (a : HTMLAudioElement Q),
     audioRef p = Some a ->
     volume (react (page_world p)) = s ->
     volumeEffect p
       = {| page_world := page_world p;
            audioRef := Some (audio_set_volume (inject_Z s / 100)%Q a) |}
     /\ (0 <= inject_Z s / 100)%Q /\ (inject_Z s / 100 <= 1)%Q)
  /\ (forall (p : Page Binary64.b64) (a : HTMLAudioElement Binary64.b64),
        audioRef p = Some a ->
        volume (react (page_world p)) = s ->
        volumeEffect p
          = {| page_world := page_world p;
               audioRef :=
                 Some (audio_set_volume
                         (num_div (Binary64.of_Z s) (Binary64.of_Z 100)) a) |}
        /\ SFleb (Binary64.of_Z 0)
                 (num_div (Binary64.of_Z s) (Binary64.of_Z 100)) = true
        /\ SFleb (num_div (Binary64.of_Z s) (Binary64.of_Z 100))
                 (Binary64.of_Z 1) = true)
  /\ (forall p : Page Binary64.b64, audioRef p = None -> volumeEffect p = p)
  /\ num_div (Binary64.of_Z 0) (Binary64.of_Z 100) = Binary64.of_Z 0
  /\ num_div (Binary64.of_Z 50) (Binary64.of_Z 100) = Binary64.of_dec (1 # 2)
  /\ num_div (Binary64.of_Z 100) (Binary64.of_Z 100) = Binary64.of_Z 1.
Proof.
  intros H0 H100.
  split; [|split; [|split; [|split; [|split]]]].
  - intros p a Ha Hv. unfold volumeEffect. rewrite Ha, Hv.
    split; [reflexivity|].
    destruct (slider_Q_range s (conj H0 H100)) as (Hq0 & Hq1).
    split.
    + apply Qle_shift_div_l; [reflexivity | lra].
    + apply Qle_shift_div_r; [reflexivity | lra].
  - intros p a Ha Hv. unfold volumeEffect. rewrite Ha, Hv.
    split; [reflexivity|].
    apply andb_prop.
    apply (forall_slider (fun s =>
      SFleb (Binary64.of_Z 0) (num_div (Binary64.of_Z s) (Binary64.of_Z 100))
      && SFleb (num_div (Binary64.of_Z s) (Binary64.of_Z 100)) (Binary64.of_Z 1)));
      [vm_compute; reflexivity | lia].
  - intros p Hp. unfold volumeEffect. rewrite Hp. reflexivity.
  - vm_compute. reflexivity.
  - vm_compute. reflexivity.
  - vm_compute. reflexivity.
Qed.

Lemma volume_effect_in_unit_range_witness :
  (0 <= inject_Z 50 / 100)%Q /\ (inject_Z 50 / 100 <= 1)%Q.
Proof.
  destruct (volume_effect_in_unit_range 50) as (Hq & _); [lia | lia |].
  apply (Hq {| page_world := initial_world;
               audioRef := Some {| audio_src := ""; audio_loop := false;
                                   audio_paused := true;
                                   audio_volume := 1%Q |} |}
            {| audio_src := ""; audio_loop := false;
               audio_paused := true; audio_volume := 1%Q |}).
  - reflexivity.
  - reflexivity.
Defined.

(** ** Starting and stopping playback *)

(** X15.  A batch selected while playback is paused starts playback when
    its last file has decoded, in whatever order the files decode: the run
    of the loads returns, with the batch appended and [isPlaying] true. *)
Theorem paused_upload_autostarts (w : World) (fs : list File)
    (loads : list HTMLImageElement) :
  fs <> [] ->
  isPlaying (react w) = false ->
  loads ≡ₚ map img (batch_entries fs w) ->
  exists w' : World,
    run (map ImageLoad loads) (handleImageUpload (Some fs) w) = Some w'
    /\ isPlaying (react w') = true
    /\ images (react w') = images (react w) ++ batch_entries fs w.
Proof.
  intros Hne Hpaused Hperm.
  destruct (batch_loads_onload fs w loads Hperm) as (Hlen & Hon).
  set (w1 := handleImageUpload (Some fs) w).
  pose proof (batch_closure_lookup fs w Hne) as Hk. fold w1 in Hk.
  destruct (run_loads_total loads w1) as (w' & Hrun).
  exists w'. split; [exact Hrun|].
  split.
  - destruct loads as [|l0 loads0] using rev_ind.
    { destruct fs; [congruence | discriminate Hlen]. }
    clear IHloads0.
    rewrite length_app in Hlen. simpl in Hlen.
    apply Forall_app in Hon as (Hinit & Hlast).
    apply Forall_cons in Hlast as (Hl0 & _).
    rewrite map_app, run_app in Hrun.
    destruct (run (map ImageLoad loads0) w1) as [wa|] eqn:Hra; [|discriminate].
    simpl in Hrun. rewrite Hl0 in Hrun. inversion Hrun; subst w'.
    assert (Hla : Forall (fun i => onload i = Some (length (closures w)))
                    (loads_of (map ImageLoad loads0)))
      by (rewrite loads_of_loads; exact Hinit).
    destruct (run_tracks _ _ _ _ _ Hk Hla Hra) as (Hka & _).
    rewrite loads_of_loads in Hka.
    assert (Hre : react wa = react w1).
    { eapply run_loads_below; [exact Hk | exact Hinit | | exact Hra].
      simpl. lia. }
    rewrite (img_onload_autostart _ wa _ Hka) by (simpl; lia).
    rewrite Hre. unfold w1. rewrite handleImageUpload_react, Hpaused.
    simpl. rewrite Hpaused. reflexivity.
  - rewrite (run_batch fs w w' (map ImageLoad loads) Hne)
      by (rewrite ?loads_of_loads; auto).
    rewrite loads_of_loads, Hlen, Nat.ltb_irrefl. reflexivity.
Qed.

Lemma paused_upload_autostarts_witness :
  exists w' : World,
    run (map ImageLoad [ {| src := "blob:1"; onload := Some 0 |};
                         {| src := "blob:0"; onload := Some 0 |} ])
        (handleImageUpload (Some ["a.png"; "b.png"]) initial_world) = Some w'
    /\ isPlaying (react w') = true
    /\ images (react w') =
         images (react initial_world)
         ++ batch_entries ["a.png"; "b.png"] initial_world.
Proof.
  apply (paused_upload_autostarts initial_world ["a.png"; "b.png"]).
  - discriminate.
  - reflexivity.
  - vm_compute. apply perm_swap.
Defined.



(** X17.  At every slider position the alpha of the shade overlay,
    [(shade / 100) * 0.65], lies between 0 and 0.65 and grows with the
    shade, in exact arithmetic and in binary64: the overlay never hides
    more than 65% of the picture. *)
Theorem shade_alpha_bounded (s1 s2 : Z) :
  (0 <= s1)%Z -> (s1 <= s2)%Z -> (s2 <= 100)%Z ->
  (0 <= (inject_Z s1 / 100) * (65 # 100))%Q
  /\ ((inject_Z s1 / 100) * (65 # 100) <= (inject_Z s2 / 100) * (65 # 100))%Q
  /\ ((inject_Z s2 / 100) * (65 # 100) <= 65 # 100)%Q
  /\ SFleb (Binary64.of_Z 0)
           (num_mul (num_div (Binary64.of_Z s1) (Binary64.of_Z 100))
                    (Binary64.of_dec (65 # 100))) = true
  /\ SFleb (num_mul (num_div (Binary64.of_Z s1) (Binary64.of_Z 100))
                    (Binary64.of_dec (65 # 100)))
           (num_mul (num_div (Binary64.of_Z s2) (Binary64.of_Z 100))
                    (Binary64.of_dec (65 # 100))) = true
  /\ SFleb (num_mul (num_div (Binary64.of_Z s2) (Binary64.of_Z 100))
                    (Binary64.of_dec (65 # 100)))
           (Binary64.of_dec (65 # 100)) = true.
Proof.
  intros H0 H12 H100.
  destruct (slider_Q_range s1 ltac:(lia)) as (Ha0 & Ha1).
  destruct (slider_Q_range s2 ltac:(lia)) as (Hb0 & Hb1).
  assert (Hab : (inject_Z s1 <= inject_Z s2)%Q) by (rewrite <- Zle_Qle; exact H12).
  assert (Hform : forall x : Q, (x / 100 * (65 # 100) == x * (65 # 10000))%Q).
  { intros x. field. }
  split; [rewrite Hform; lra|].
  split; [rewrite !Hform; lra|].
  split; [rewrite Hform; lra|].
  pose (alpha := fun s : Z =>
    num_mul (num_div (Binary64.of_Z s) (Binary64.of_Z 100))
            (Binary64.of_dec (65 # 100))).
  assert (Hends : forall s : Z, (0 <= s <= 100)%Z ->
            SFleb (Binary64.of_Z 0) (alpha s) = true
            /\ SFleb (alpha s) (Binary64.of_dec (65 # 100)) = true).
  { intros s Hs. apply andb_prop.
    apply (forall_slider (fun s =>
      SFleb (Binary64.of_Z 0) (alpha s)
      && SFleb (alpha s) (Binary64.of_dec (65 # 100))));
      [vm_compute; reflexivity | exact Hs]. }
  split; [apply (Hends s1); lia|].
  split; [|apply (Hends s2); lia].
  pose (P := fun a b : Z =>
    if (a <=? b)%Z then SFleb (alpha a) (alpha b) else true).
  assert (HP : P s1 s2 = true).
  { apply forall_slider2; [vm_compute; reflexivity | lia | lia]. }
  unfold P in HP. destruct (Z.leb_spec s1 s2); [exact HP | lia].
Qed.

Lemma shade_alpha_bounded_witness :
  ((inject_Z 20 / 100) * (65 # 100) <= (inject_Z 80 / 100) * (65 # 100))%Q.
Proof.
  destruct (shade_alpha_bounded 20 80) as (_ & Hmono & _); [lia | lia | lia |].
  exact Hmono.
Defined.
